(** * k8s-schedule-simulator: cluster snapshot initialisation and the
      similar-pods (equivalence) cache

    A shallow embedding of

    - [clustersnapshot.InitializeClusterSnapshotOrDie], and
    - package [scheduling]: [SimilarPodsSchedulingInfo.Match],
      [SimilarPodsScheduling] with [IsSimilarUnschedulable],
      [SetUnschedulable], [OverflowingControllerCount], and the helpers
      [PodSpecSemanticallyEqual], [sanitizePodSpec],
      [dropProjectedVolumesAndMounts], [dropHostname].

    Go passes [apiv1.PodSpec] by value, but the [Containers] and
    [InitContainers] fields are slices: copying the struct copies the slice
    header and shares the backing array.  [dropProjectedVolumesAndMounts]
    assigns through [podSpec.Containers[i]], so the backing arrays live in an
    explicit store here and every function that reaches them threads that
    store. *)

From stdpp Require Import base option list gmap strings fin_maps.

#[local] Set Warnings "-clear-no-such-hyp".

Open Scope string_scope.
Open Scope list_scope.

(** ** Kubernetes API records (the fields the code reads or writes) *)

Module VolumeMount.
Record t := mk { Name : string; MountPath : string; ReadOnly : bool }.
#[global] Instance eq_dec : EqDecision t.
Proof. solve_decision. Defined.
End VolumeMount.

Module ProjectedVolumeSource.
Record t := mk { Sources : list string }.
#[global] Instance eq_dec : EqDecision t.
Proof. solve_decision. Defined.
End ProjectedVolumeSource.

(** [Projected] is a pointer in Go: [None] is [nil].  [HostPath] stands for
    the other volume sources. *)
Module Volume.
Record t := mk {
  Name : string;
  Projected : option ProjectedVolumeSource.t;
  HostPath : option string }.
#[global] Instance eq_dec : EqDecision t.
Proof. solve_decision. Defined.
End Volume.

(** [VolumeMounts] is a slice that the code only ever replaces as a whole
    (it never writes through it), so it is kept as a value.  A nil and an
    empty slice are both [[]]: the one comparison applied to them,
    [apiequality.Semantic.DeepEqual], does not tell them apart. *)
Module Container.
Record t := mk {
  Name : string;
  Image : string;
  VolumeMounts : list VolumeMount.t }.
#[global] Instance eq_dec : EqDecision t.
Proof. solve_decision. Defined.
End Container.

(** An ephemeral container has its own type, with volume mounts like any
    container and the name of the container it targets. *)
Module EphemeralContainer.
Record t := mk {
  Name : string;
  Image : string;
  VolumeMounts : list VolumeMount.t;
  TargetContainerName : string }.
#[global] Instance eq_dec : EqDecision t.
Proof. solve_decision. Defined.
End EphemeralContainer.

(** A [[]Container] slice: [None] is the nil slice, [Some a] points to the
    backing array at address [a] of the store. *)
Abbreviation loc := positive (only parsing).
Abbreviation slice := (option positive) (only parsing).
Abbreviation labelmap := (option (gmap string string)) (only parsing).

(** [EphemeralContainers] is a slice that the code neither writes through
    nor replaces, so it is kept as a value. *)
Module PodSpec.
Record t := mk {
  Volumes : list Volume.t;
  InitContainers : slice;
  Containers : slice;
  EphemeralContainers : list EphemeralContainer.t;
  NodeSelector : labelmap;
  NodeName : string;
  Hostname : string }.
#[global] Instance eq_dec : EqDecision t.
Proof. solve_decision. Defined.
End PodSpec.

Module OwnerReference.
Record t := mk {
  Kind : string;
  Name : string;
  UID : string;
  Controller : option bool }.
#[global] Instance eq_dec : EqDecision t.
Proof. solve_decision. Defined.
End OwnerReference.

(** [Labels] is a Go map: [None] is the nil map, which [reflect.DeepEqual]
    distinguishes from an empty one. *)
Module Pod.
Record t := mk {
  Name : string;
  Namespace : string;
  Labels : labelmap;
  Annotations : gmap string string;
  OwnerReferences : list OwnerReference.t;
  Spec : PodSpec.t;
  NominatedNodeName : string }.
#[global] Instance eq_dec : EqDecision t.
Proof. solve_decision. Defined.
End Pod.

Module Node.
Record t := mk { Name : string; Labels : gmap string string }.
#[global] Instance eq_dec : EqDecision t.
Proof. solve_decision. Defined.
End Node.

(** ** The store of container arrays *)

Abbreviation heap := (gmap positive (list Container.t)) (only parsing).

(** [load h s] is the contents of slice [s]; a nil slice has no elements. *)
Definition load (h : heap) (s : slice) : list Container.t :=
  match s with
  | None => []
  | Some a => default [] (h !! a)
  end.

(** What a pod specification denotes once its slices are read from the
    store. *)
Module SpecValue.
Record t := mk {
  Volumes : list Volume.t;
  InitContainers : list Container.t;
  Containers : list Container.t;
  EphemeralContainers : list EphemeralContainer.t;
  NodeSelector : labelmap;
  NodeName : string;
  Hostname : string }.
#[global] Instance eq_dec : EqDecision t.
Proof. solve_decision. Defined.
End SpecValue.

Definition deref (h : heap) (s : PodSpec.t) : SpecValue.t :=
  {| SpecValue.Volumes := PodSpec.Volumes s;
     SpecValue.InitContainers := load h (PodSpec.InitContainers s);
     SpecValue.Containers := load h (PodSpec.Containers s);
     SpecValue.EphemeralContainers := PodSpec.EphemeralContainers s;
     SpecValue.NodeSelector := PodSpec.NodeSelector s;
     SpecValue.NodeName := PodSpec.NodeName s;
     SpecValue.Hostname := PodSpec.Hostname s |}.

(** ** [apiequality.Semantic.DeepEqual] and [reflect.DeepEqual] *)

(** Semantic equality of two maps: a nil map and an empty map are equal. *)
Definition semantic_map_eq (a b : labelmap) : bool :=
  bool_decide (default ∅ a = default ∅ b).

(** [apiequality.Semantic.DeepEqual] on two pod specifications follows the
    slices into the store and compares field by field. *)
Definition Semantic_DeepEqual_value (a b : SpecValue.t) : bool :=
  bool_decide (SpecValue.Volumes a = SpecValue.Volumes b)
  && bool_decide (SpecValue.InitContainers a = SpecValue.InitContainers b)
  && bool_decide (SpecValue.Containers a = SpecValue.Containers b)
  && bool_decide (SpecValue.EphemeralContainers a = SpecValue.EphemeralContainers b)
  && semantic_map_eq (SpecValue.NodeSelector a) (SpecValue.NodeSelector b)
  && bool_decide (SpecValue.NodeName a = SpecValue.NodeName b)
  && bool_decide (SpecValue.Hostname a = SpecValue.Hostname b).

Definition Semantic_DeepEqual (h : heap) (p1 p2 : PodSpec.t) : bool :=
  Semantic_DeepEqual_value (deref h p1) (deref h p2).

(** [reflect.DeepEqual] on two [map[string]string]: both nil, or both
    non-nil with the same entries. *)
Definition reflect_DeepEqual (a b : labelmap) : bool := bool_decide (a = b).

(** ** Package scheduling: sanitisation *)

(** First loop of [dropProjectedVolumesAndMounts]: one pass over
    [podSpec.Volumes] builds the kept volumes and the set of projected
    names. *)
Definition volumes_step (acc : list Volume.t * gmap string bool) (v : Volume.t)
  : list Volume.t * gmap string bool :=
  match Volume.Projected v with
  | None => (acc.1 ++ [v], acc.2)
  | Some _ => (acc.1, <[Volume.Name v := true]> acc.2)
  end.

Definition scan_volumes (vs : list Volume.t) : list Volume.t * gmap string bool :=
  fold_left volumes_step vs ([], ∅).

(** [projectedVolumeNames[name]]: a missing key reads as [false]. *)
Definition index_bool (m : gmap string bool) (k : string) : bool :=
  default false (m !! k).

(** Inner loop: keep the mounts whose name is not a projected volume. *)
Definition mounts_step (names : gmap string bool) (acc : list VolumeMount.t)
  (mount : VolumeMount.t) : list VolumeMount.t :=
  if index_bool names (VolumeMount.Name mount) then acc else acc ++ [mount].

Definition keep_mounts (names : gmap string bool) (ms : list VolumeMount.t)
  : list VolumeMount.t :=
  fold_left (mounts_step names) ms [].

Definition set_VolumeMounts (c : Container.t) (ms : list VolumeMount.t) : Container.t :=
  {| Container.Name := Container.Name c;
     Container.Image := Container.Image c;
     Container.VolumeMounts := ms |}.

(** Body of [for i := range podSpec.Containers]: read element [i] of the
    backing array, filter its mounts, and write the element back in place. *)
Definition drop_at (names : gmap string bool) (a : loc) (h : heap) (i : nat) : heap :=
  let arr := default [] (h !! a) in
  match arr !! i with
  | Some c =>
      <[a := <[i := set_VolumeMounts c (keep_mounts names (Container.VolumeMounts c))]> arr]> h
  | None => h
  end.

Definition drop_mounts_in (names : gmap string bool) (s : slice) (h : heap) : heap :=
  match s with
  | None => h
  | Some a => fold_left (drop_at names a) (seq 0 (length (load h s))) h
  end.

Definition set_Volumes (s : PodSpec.t) (vs : list Volume.t) : PodSpec.t :=
  {| PodSpec.Volumes := vs;
     PodSpec.InitContainers := PodSpec.InitContainers s;
     PodSpec.Containers := PodSpec.Containers s;
     PodSpec.EphemeralContainers := PodSpec.EphemeralContainers s;
     PodSpec.NodeSelector := PodSpec.NodeSelector s;
     PodSpec.NodeName := PodSpec.NodeName s;
     PodSpec.Hostname := PodSpec.Hostname s |}.

(** [dropProjectedVolumesAndMounts(podSpec *apiv1.PodSpec)]: the argument is
    the callee's own struct copy, returned here; the container arrays it
    points to are updated in the store. *)
Definition dropProjectedVolumesAndMounts (podSpec : PodSpec.t) (h : heap)
  : PodSpec.t * heap :=
  let '(volumes, projectedVolumeNames) := scan_volumes (PodSpec.Volumes podSpec) in
  let podSpec' := set_Volumes podSpec volumes in
  let h1 := drop_mounts_in projectedVolumeNames (PodSpec.Containers podSpec') h in
  let h2 := drop_mounts_in projectedVolumeNames (PodSpec.InitContainers podSpec') h1 in
  (podSpec', h2).

Definition dropHostname (podSpec : PodSpec.t) : PodSpec.t :=
  {| PodSpec.Volumes := PodSpec.Volumes podSpec;
     PodSpec.InitContainers := PodSpec.InitContainers podSpec;
     PodSpec.Containers := PodSpec.Containers podSpec;
     PodSpec.EphemeralContainers := PodSpec.EphemeralContainers podSpec;
     PodSpec.NodeSelector := PodSpec.NodeSelector podSpec;
     PodSpec.NodeName := PodSpec.NodeName podSpec;
     PodSpec.Hostname := "" |}.

Definition sanitizePodSpec (podSpec : PodSpec.t) (h : heap) : PodSpec.t * heap :=
  let '(podSpec1, h1) := dropProjectedVolumesAndMounts podSpec h in
  (dropHostname podSpec1, h1).

Definition PodSpecSemanticallyEqual (p1 p2 : PodSpec.t) (h : heap) : bool * heap :=
  let '(p1Spec, h1) := sanitizePodSpec p1 h in
  let '(p2Spec, h2) := sanitizePodSpec p2 h1 in
  (Semantic_DeepEqual h2 p1Spec p2Spec, h2).

(** ** Package scheduling: the similar-pods cache *)

Record SimilarPodsSchedulingInfo := mkInfo {
  spec : PodSpec.t;
  labels : labelmap }.

#[global] Instance SimilarPodsSchedulingInfo_eq_dec : EqDecision SimilarPodsSchedulingInfo.
Proof. solve_decision. Defined.

(** [&&] is short-circuit: the specifications are sanitised and compared
    only when the label maps are deeply equal. *)
Definition Match (psi : SimilarPodsSchedulingInfo) (pod : Pod.t) (h : heap)
  : bool * heap :=
  if reflect_DeepEqual (Pod.Labels pod) (labels psi)
  then PodSpecSemanticallyEqual (Pod.Spec pod) (spec psi) h
  else (false, h).

Definition maxPodsPerOwnerRef : nat := 10.

Record SimilarPodsScheduling := mkCache {
  items : gmap string (list SimilarPodsSchedulingInfo);
  overflowingControllers : gmap string bool }.

Definition NewSimilarPodsScheduling : SimilarPodsScheduling :=
  {| items := ∅; overflowingControllers := ∅ |}.

(** [p.items[uid]]: a missing key reads as the nil slice. *)
Definition index_items (p : SimilarPodsScheduling) (uid : string)
  : list SimilarPodsSchedulingInfo :=
  default [] (items p !! uid).

(** [for _, info := range infos { if info.Match(pod) { return true } }] *)
Fixpoint match_any (infos : list SimilarPodsSchedulingInfo) (pod : Pod.t) (h : heap)
  : bool * heap :=
  match infos with
  | [] => (false, h)
  | info :: rest =>
      let '(b, h1) := Match info pod h in
      if b then (true, h1) else match_any rest pod h1
  end.

Section Cache.

(** [drain.ControllerRef] and [pod_utils.IsDaemonSetPod] come from the
    packages [drain] and [pod]; the cache is defined and verified for any
    implementation of the two. *)
Variable ControllerRef : Pod.t -> option OwnerReference.t.
Variable IsDaemonSetPod : Pod.t -> bool.

Definition IsSimilarUnschedulable (p : SimilarPodsScheduling) (pod : Pod.t) (h : heap)
  : bool * heap :=
  match ControllerRef pod with
  | None => (false, h)
  | Some ref =>
      let uid := OwnerReference.UID ref in
      match items p !! uid with
      | Some infos => match_any infos pod h
      | None => (false, h)
      end
  end.

Definition SetUnschedulable (p : SimilarPodsScheduling) (pod : Pod.t)
  : SimilarPodsScheduling :=
  match ControllerRef pod with
  | None => p
  | Some ref =>
      if IsDaemonSetPod pod then p
      else
        let uid := OwnerReference.UID ref in
        let pm := index_items p uid in
        if bool_decide (maxPodsPerOwnerRef ≤ length pm)%nat then
          {| items := items p;
             overflowingControllers := <[uid := true]> (overflowingControllers p) |}
        else
          {| items := <[uid := pm ++ [ {| spec := Pod.Spec pod; labels := Pod.Labels pod |} ]]> (items p);
             overflowingControllers := overflowingControllers p |}
  end.

Definition OverflowingControllerCount (p : SimilarPodsScheduling) : nat :=
  size (overflowingControllers p).

(** The cache states a program can build: the fields are unexported, so a
    state is a fresh cache followed by calls of [SetUnschedulable]. *)
Inductive reachable : SimilarPodsScheduling -> Prop :=
| reachable_new : reachable NewSimilarPodsScheduling
| reachable_set p pod : reachable p -> reachable (SetUnschedulable p pod).

(** Whether a call of [SetUnschedulable] takes the branch that marks the
    controller as overflowing, and for which identity. *)
Definition overflow_mark (p : SimilarPodsScheduling) (pod : Pod.t) : option string :=
  match ControllerRef pod with
  | None => None
  | Some ref =>
      if IsDaemonSetPod pod then None
      else if bool_decide (maxPodsPerOwnerRef ≤ length (index_items p (OwnerReference.UID ref)))%nat
           then Some (OwnerReference.UID ref) else None
  end.

(** A run of [SetUnschedulable] calls from state [p], with the identities
    marked as overflowing along the way, in order. *)
Fixpoint run (p : SimilarPodsScheduling) (pods : list Pod.t)
  : SimilarPodsScheduling * list string :=
  match pods with
  | [] => (p, [])
  | pod :: rest =>
      let '(p', marks) := run (SetUnschedulable p pod) rest in
      (p', match overflow_mark p pod with Some uid => uid :: marks | None => marks end)
  end.

End Cache.

(** Modelled from the spec: [drain.ControllerRef] is not among the sources.
    The spec calls its result the workload's owning-controller identity and
    lets it be absent; as in the Kubernetes API, the owning controller is the
    owner reference whose [Controller] flag is set. *)
Module drain.
Definition ControllerRef (pod : Pod.t) : option OwnerReference.t :=
  List.find (fun r => bool_decide (OwnerReference.Controller r = Some true))
            (Pod.OwnerReferences pod).
End drain.

(** Modelled from the spec: [pod_utils.IsDaemonSetPod] is not among the
    sources.  The spec only speaks of daemon-set workloads; the model takes
    a pod to be one when its owning controller is of kind DaemonSet, or when
    it carries the annotation by which the autoscaler lets any pod be treated
    as a daemon-set pod. *)
Module pod_utils.
Definition DaemonSetPodAnnotationKey : string :=
  "cluster-autoscaler.kubernetes.io/daemonset-pod".
Definition IsDaemonSetPod (pod : Pod.t) : bool :=
  match drain.ControllerRef pod with
  | Some ref => bool_decide (OwnerReference.Kind ref = "DaemonSet")
  | None => false
  end
  || bool_decide (Pod.Annotations pod !! DaemonSetPodAnnotationKey = Some "true").
End pod_utils.

(** ** The element loops as whole-array updates *)

(** What the body of an element loop does to one container. *)
Definition strip_by (names : gmap string bool) (c : Container.t) : Container.t :=
  set_VolumeMounts c (keep_mounts names (Container.VolumeMounts c)).

(** The backing array of slice [s] with [f] applied to every element. *)
Definition strip_at (f : Container.t → Container.t) (s : slice) (h : heap) : heap :=
  match s with
  | None => h
  | Some a =>
      match h !! a with
      | Some arr => <[a := f <$> arr]> h
      | None => h
      end
  end.

(** ** The specification's reading of sanitisation, on values *)

Definition is_projected (v : Volume.t) : bool :=
  bool_decide (Volume.Projected v ≠ None).

(** The names of the projected volumes of a specification. *)
Definition projected_names (vs : list Volume.t) : list string :=
  Volume.Name <$> filter (λ v, is_projected v = true) vs.

(** Volumes not derived from a projected source. *)
Definition plain_volumes (vs : list Volume.t) : list Volume.t :=
  filter (λ v, is_projected v = false) vs.

(** Mounts that do not reference one of the names [ns]. *)
Definition plain_mounts (ns : list string) (ms : list VolumeMount.t) : list VolumeMount.t :=
  filter (λ m, VolumeMount.Name m ∉ ns) ms.

Definition strip_container (ns : list string) (c : Container.t) : Container.t :=
  set_VolumeMounts c (plain_mounts ns (Container.VolumeMounts c)).

(** The sanitised specification, as the code computes it: the projected
    volumes are removed, the mounts that reference them are removed from the
    containers and the init containers, the hostname is cleared.  The
    ephemeral containers are left as they are. *)
Definition sanitized (v : SpecValue.t) : SpecValue.t :=
  let ns := projected_names (SpecValue.Volumes v) in
  {| SpecValue.Volumes := plain_volumes (SpecValue.Volumes v);
     SpecValue.InitContainers := strip_container ns <$> SpecValue.InitContainers v;
     SpecValue.Containers := strip_container ns <$> SpecValue.Containers v;
     SpecValue.EphemeralContainers := SpecValue.EphemeralContainers v;
     SpecValue.NodeSelector := SpecValue.NodeSelector v;
     SpecValue.NodeName := SpecValue.NodeName v;
     SpecValue.Hostname := "" |}.

(** Two workloads are equivalent when their label maps are exactly equal and
    their sanitised specifications are semantically equal. *)
Definition equivalent (h : heap) (psi : SimilarPodsSchedulingInfo) (pod : Pod.t) : Prop :=
  Pod.Labels pod = labels psi
  ∧ Semantic_DeepEqual_value (sanitized (deref h (Pod.Spec pod)))
                             (sanitized (deref h (spec psi))) = true.

(** Two containers that are the same but for the mounts that reference the
    projected volumes [ns] of the one and [ms] of the other. *)
Definition same_but_projected_mounts (ns ms : list string) (c d : Container.t) : Prop :=
  Container.Name c = Container.Name d
  ∧ Container.Image c = Container.Image d
  ∧ plain_mounts ns (Container.VolumeMounts c) = plain_mounts ms (Container.VolumeMounts d).

Definition same_ephemeral_but_projected_mounts (ns ms : list string)
  (c d : EphemeralContainer.t) : Prop :=
  EphemeralContainer.Name c = EphemeralContainer.Name d
  ∧ EphemeralContainer.Image c = EphemeralContainer.Image d
  ∧ EphemeralContainer.TargetContainerName c = EphemeralContainer.TargetContainerName d
  ∧ plain_mounts ns (EphemeralContainer.VolumeMounts c)
    = plain_mounts ms (EphemeralContainer.VolumeMounts d).

(** Two specifications that differ only in projected volumes, in volume
    mounts that reference projected volumes, whichever container holds them,
    and in the hostname. *)
Definition differ_only_in_projected (v w : SpecValue.t) : Prop :=
  plain_volumes (SpecValue.Volumes v) = plain_volumes (SpecValue.Volumes w)
  ∧ Forall2 (same_but_projected_mounts (projected_names (SpecValue.Volumes v))
                                       (projected_names (SpecValue.Volumes w)))
            (SpecValue.InitContainers v) (SpecValue.InitContainers w)
  ∧ Forall2 (same_but_projected_mounts (projected_names (SpecValue.Volumes v))
                                       (projected_names (SpecValue.Volumes w)))
            (SpecValue.Containers v) (SpecValue.Containers w)
  ∧ Forall2 (same_ephemeral_but_projected_mounts
               (projected_names (SpecValue.Volumes v))
               (projected_names (SpecValue.Volumes w)))
            (SpecValue.EphemeralContainers v) (SpecValue.EphemeralContainers w)
  ∧ default ∅ (SpecValue.NodeSelector v) = default ∅ (SpecValue.NodeSelector w)
  ∧ SpecValue.NodeName v = SpecValue.NodeName w.

(** The same, with the mounts of the ephemeral containers excepted: the two
    specifications differ only in projected volumes, in mounts of containers
    and init containers that reference projected volumes, and in the
    hostname; their ephemeral containers are the same. *)
Definition differ_only_in_stripped (v w : SpecValue.t) : Prop :=
  plain_volumes (SpecValue.Volumes v) = plain_volumes (SpecValue.Volumes w)
  ∧ Forall2 (same_but_projected_mounts (projected_names (SpecValue.Volumes v))
                                       (projected_names (SpecValue.Volumes w)))
            (SpecValue.InitContainers v) (SpecValue.InitContainers w)
  ∧ Forall2 (same_but_projected_mounts (projected_names (SpecValue.Volumes v))
                                       (projected_names (SpecValue.Volumes w)))
            (SpecValue.Containers v) (SpecValue.Containers w)
  ∧ SpecValue.EphemeralContainers v = SpecValue.EphemeralContainers w
  ∧ default ∅ (SpecValue.NodeSelector v) = default ∅ (SpecValue.NodeSelector w)
  ∧ SpecValue.NodeName v = SpecValue.NodeName w.

(** The signature [SetUnschedulable] stores for a pod: a shallow copy of
    its specification, and its label map. *)
Definition signature_of (pod : Pod.t) : SimilarPodsSchedulingInfo :=
  {| spec := Pod.Spec pod; labels := Pod.Labels pod |}.

(** The projected-volume names of a specification, and the clean-up they
    induce on a container. *)
Definition names_of (s : PodSpec.t) : list string :=
  projected_names (PodSpec.Volumes s).

Definition strip_of (s : PodSpec.t) : Container.t → Container.t :=
  strip_container (names_of s).

(** [owns s a]: one of the two container slices of [s] points to array [a]. *)
Definition owns (s : PodSpec.t) (a : positive) : Prop :=
  PodSpec.Containers s = Some a ∨ PodSpec.InitContainers s = Some a.

(** Two specifications are coherent when, if they share a backing array at
    all, they have the same projected-volume names.  Shallow copies of one
    specification are coherent, and so are specifications with separate
    arrays. *)
Definition coherent (s1 s2 : PodSpec.t) : Prop :=
  (∃ a, owns s1 a ∧ owns s2 a) → ∀ k, k ∈ names_of s1 ↔ k ∈ names_of s2.

(** Specifications that share no backing array. *)
Definition separate (s1 s2 : PodSpec.t) : Prop :=
  ∀ a, owns s1 a → ¬ owns s2 a.

(** The stored signatures [infos] and the specification [q] of a pod looked
    up against them are pairwise coherent. *)
Definition coherent_family (q : PodSpec.t) (infos : list SimilarPodsSchedulingInfo) : Prop :=
  (∀ i, i ∈ infos → coherent (spec i) q)
  ∧ (∀ i j, i ∈ infos → j ∈ infos → coherent (spec i) (spec j)).

(** ** Package clustersnapshot *)

Module clustersnapshot.

(** The error conditions the specification names for a snapshot. *)
Inductive error :=
| DuplicateNode (name : string)
| UnknownNode (name : string)
| InvalidBinding.

#[global] Instance error_eq_dec : EqDecision error.
Proof. solve_decision. Defined.

(** The [ClusterSnapshot] interface, as far as initialisation uses it.  A Go
    method mutates its receiver and returns an [error] ([None] is nil); here
    it maps the snapshot state to the new state and the error. *)
Class ClusterSnapshot (S : Type) := {
  Clear : S → S;
  AddNode : Node.t → S → S * option error;
  AddPod : Pod.t → string → S → S * option error }.

(** How a call ends: it returns, or it panics with the value given to
    [panic] (an [error], possibly nil).  Either way the snapshot is left in
    some state. *)
Inductive outcome (S : Type) :=
| Returned (s : S)
| Panicked (v : option error) (s : S).
Arguments Returned {S} s.
Arguments Panicked {S} v s.

Definition final_state {S} (o : outcome S) : S :=
  match o with Returned s => s | Panicked _ s => s end.

Definition panicked {S} (o : outcome S) : bool :=
  match o with Returned _ => false | Panicked _ _ => true end.

Section Initialize.
Context {S : Type} {snap : ClusterSnapshot S}.

(** [for _, node := range nodes { err = snapshot.AddNode(node) }] *)
Definition add_nodes (nodes : list Node.t) (st : S * option error) : S * option error :=
  fold_left (λ st node, AddNode node st.1) nodes st.

(** [for _, pod := range pods { ... }] *)
Fixpoint add_pods (pods : list Pod.t) (s : S) (err : option error) : outcome S :=
  match pods with
  | [] => Returned s
  | pod :: rest =>
      if negb (String.eqb (PodSpec.NodeName (Pod.Spec pod)) "") then
        let '(s', err') := AddPod pod (PodSpec.NodeName (Pod.Spec pod)) s in
        add_pods rest s' err'
      else if negb (String.eqb (Pod.NominatedNodeName pod) "") then
        let '(s', err') := AddPod pod (Pod.NominatedNodeName pod) s in
        add_pods rest s' err'
      else Panicked err s
  end.

Definition InitializeClusterSnapshotOrDie (snapshot : S) (nodes : list Node.t)
  (pods : list Pod.t) : outcome S :=
  let err : option error := None in
  let s0 := Clear snapshot in
  let '(s1, err1) := add_nodes nodes (s0, err) in
  add_pods pods s1 err1.

End Initialize.

(** *** A snapshot that records the calls made on it *)

Inductive call :=
| CallClear
| CallAddNode (node : Node.t)
| CallAddPod (pod : Pod.t) (nodeName : string).

(** The state is the log of calls; [verdict] decides, from the log so far
    and the call, which error the call reports. *)
Definition Recorder (verdict : list call → call → option error)
  : ClusterSnapshot (list call) :=
  {| Clear := λ log, log ++ [CallClear];
     AddNode := λ node log,
       (log ++ [CallAddNode node], verdict log (CallAddNode node));
     AddPod := λ pod nodeName log,
       (log ++ [CallAddPod pod nodeName], verdict log (CallAddPod pod nodeName)) |}.

(** A verdict under which every call of [AddNode] and [AddPod] fails. *)
Definition always_fails (log : list call) (c : call) : option error :=
  match c with
  | CallClear => None
  | CallAddNode node => Some (DuplicateNode (Node.Name node))
  | CallAddPod _ nodeName => Some (UnknownNode nodeName)
  end.

(** *** The snapshot of the specification *)

(** Modelled from the spec: the implementation of [ClusterSnapshot] is not
    among the sources.  Per the spec a snapshot maps a node name to the node
    and the workloads bound to it; [AddNode] fails with [DuplicateNode] if
    the name already exists, [AddPod] fails with [InvalidBinding] if the
    workload has neither an explicit assignment nor a nominated node and with
    [UnknownNode] if the node is absent, and a failed call leaves the
    snapshot as it was. *)
Definition BasicClusterSnapshot : ClusterSnapshot (gmap string (Node.t * list Pod.t)) :=
  {| Clear := λ _, ∅;
     AddNode := λ node s,
       match s !! Node.Name node with
       | Some _ => (s, Some (DuplicateNode (Node.Name node)))
       | None => (<[Node.Name node := (node, [])]> s, None)
       end;
     AddPod := λ pod nodeName s,
       if String.eqb (PodSpec.NodeName (Pod.Spec pod)) ""
          && String.eqb (Pod.NominatedNodeName pod) ""
       then (s, Some InvalidBinding)
       else match s !! nodeName with
            | Some (node, bound) => (<[nodeName := (node, bound ++ [pod])]> s, None)
            | None => (s, Some (UnknownNode nodeName))
            end |}.

(** *** The initialisation protocol in the specification's words *)

(** The node a running workload is bound to: its explicit assignment if
    present, otherwise its nominated node if present. *)
Definition binding_target (pod : Pod.t) : option string :=
  if decide (PodSpec.NodeName (Pod.Spec pod) ≠ "") then Some (PodSpec.NodeName (Pod.Spec pod))
  else if decide (Pod.NominatedNodeName pod ≠ "") then Some (Pod.NominatedNodeName pod)
  else None.

(** The calls of a run that binds workloads per [binding_target] and stops
    at the first workload with no target. *)
Fixpoint binding_calls (pods : list Pod.t) : list call :=
  match pods with
  | [] => []
  | pod :: rest =>
      match binding_target pod with
      | Some n => CallAddPod pod n :: binding_calls rest
      | None => []
      end
  end.

End clustersnapshot.

(** ** Sample cluster data *)

Module Samples.

Definition token (suffix : string) : Volume.t :=
  {| Volume.Name := "kube-api-access-" +:+ suffix;
     Volume.Projected := Some {| ProjectedVolumeSource.Sources := ["serviceAccountToken"] |};
     Volume.HostPath := None |}.

Definition data_volume : Volume.t :=
  {| Volume.Name := "data"; Volume.Projected := None; Volume.HostPath := Some "/var/data" |}.

Definition mount (name path : string) : VolumeMount.t :=
  {| VolumeMount.Name := name; VolumeMount.MountPath := path; VolumeMount.ReadOnly := true |}.

Definition app_container (suffix : string) : Container.t :=
  {| Container.Name := "app"; Container.Image := "web:1.0";
     Container.VolumeMounts :=
       [ mount ("kube-api-access-" +:+ suffix) "/var/run/secrets"; mount "data" "/data" ] |}.

Definition init_container (suffix : string) : Container.t :=
  {| Container.Name := "init"; Container.Image := "busybox";
     Container.VolumeMounts := [ mount ("kube-api-access-" +:+ suffix) "/var/run/secrets" ] |}.

Definition web_rs : OwnerReference.t :=
  {| OwnerReference.Kind := "ReplicaSet"; OwnerReference.Name := "web-5d9c";
     OwnerReference.UID := "uid-web"; OwnerReference.Controller := Some true |}.

Definition web_labels : labelmap := Some {[ "app" := "web" ]}.

(** A replica of the [web] replica set: its token volume, host name and
    container arrays are its own. *)
Definition web_pod (suffix : string) (init main : positive) (nodeName : string) : Pod.t :=
  {| Pod.Name := "web-" +:+ suffix; Pod.Namespace := "default";
     Pod.Labels := web_labels; Pod.Annotations := ∅;
     Pod.OwnerReferences := [web_rs];
     Pod.Spec := {| PodSpec.Volumes := [token suffix; data_volume];
                    PodSpec.InitContainers := Some init;
                    PodSpec.Containers := Some main;
                    PodSpec.EphemeralContainers := [];
                    PodSpec.NodeSelector := None;
                    PodSpec.NodeName := nodeName;
                    PodSpec.Hostname := "web-" +:+ suffix |};
     Pod.NominatedNodeName := "" |}.

Definition web1 : Pod.t := web_pod "aaaaa" 1 2 "".
Definition web2 : Pod.t := web_pod "bbbbb" 3 4 "".

(** A replica of the same replica set that carries the daemon-set
    annotation. *)
Definition web_ds : Pod.t :=
  {| Pod.Name := "web-ccccc"; Pod.Namespace := "default";
     Pod.Labels := web_labels;
     Pod.Annotations := {[ pod_utils.DaemonSetPodAnnotationKey := "true" ]};
     Pod.OwnerReferences := [web_rs];
     Pod.Spec := Pod.Spec (web_pod "ccccc" 5 6 "");
     Pod.NominatedNodeName := "" |}.

(** A pod of a daemon set. *)
Definition fluentd_ds : OwnerReference.t :=
  {| OwnerReference.Kind := "DaemonSet"; OwnerReference.Name := "fluentd";
     OwnerReference.UID := "uid-fluentd"; OwnerReference.Controller := Some true |}.

Definition fluentd : Pod.t :=
  {| Pod.Name := "fluentd-x2x4z"; Pod.Namespace := "kube-system";
     Pod.Labels := Some {[ "app" := "fluentd" ]}; Pod.Annotations := ∅;
     Pod.OwnerReferences := [fluentd_ds];
     Pod.Spec := Pod.Spec (web_pod "ggggg" 13 14 "");
     Pod.NominatedNodeName := "" |}.

(** A pod with no owner. *)
Definition orphan : Pod.t :=
  {| Pod.Name := "orphan"; Pod.Namespace := "default";
     Pod.Labels := web_labels; Pod.Annotations := ∅;
     Pod.OwnerReferences := [];
     Pod.Spec := Pod.Spec (web_pod "ddddd" 7 8 "");
     Pod.NominatedNodeName := "" |}.

(** A replica with another image: it is not equivalent to [web1]. *)
Definition canary : Pod.t := web_pod "eeeee" 9 10 "".

(** A replica whose specification was copied from [web1] and given its own
    token volume and host name: its two container slices still point to the
    arrays of [web1]. *)
Definition web_alias : Pod.t := web_pod "bbbbb" 1 2 "".




Definition store : heap :=
  {[ 1%positive := [init_container "aaaaa"]; 2%positive := [app_container "aaaaa"];
     3%positive := [init_container "bbbbb"]; 4%positive := [app_container "bbbbb"];
     5%positive := [init_container "ccccc"]; 6%positive := [app_container "ccccc"];
     7%positive := [init_container "ddddd"]; 8%positive := [app_container "ddddd"];
     9%positive := [init_container "eeeee"];
     10%positive := [ {| Container.Name := "app"; Container.Image := "web:2.0";
                         Container.VolumeMounts := [ mount "data" "/data" ] |} ] ]}.

Definition cache_of (pods : list Pod.t) : SimilarPodsScheduling :=
  (run drain.ControllerRef pod_utils.IsDaemonSetPod NewSimilarPodsScheduling pods).1.

(** Ten replicas of [web1] marked unschedulable: the list of the [web]
    replica set is full.  One more and the replica set is overflowing. *)
Definition full_cache : SimilarPodsScheduling := cache_of (replicate 10 web1).
Definition overflowing_cache : SimilarPodsScheduling := cache_of (replicate 11 web1).

Definition node (name : string) : Node.t :=
  {| Node.Name := name; Node.Labels := {[ "name" := name ]} |}.

(** Running workloads: one assigned, one only nominated, one assigned and
    nominated elsewhere, one with neither. *)
Definition assigned : Pod.t := web_pod "aaaaa" 1 2 "n1".
Definition nominated : Pod.t :=
  {| Pod.Name := "nominated"; Pod.Namespace := "default";
     Pod.Labels := web_labels; Pod.Annotations := ∅; Pod.OwnerReferences := [web_rs];
     Pod.Spec := Pod.Spec web2; Pod.NominatedNodeName := "n2" |}.
Definition both : Pod.t :=
  {| Pod.Name := "both"; Pod.Namespace := "default";
     Pod.Labels := web_labels; Pod.Annotations := ∅; Pod.OwnerReferences := [web_rs];
     Pod.Spec := Pod.Spec (web_pod "ccccc" 5 6 "n1"); Pod.NominatedNodeName := "n2" |}.
Definition unbound : Pod.t := web1.
Definition ghost : Pod.t := web_pod "fffff" 11 12 "n9".

End Samples.

(** ** Views of a run of the cache *)

Section CacheViews.
Variable ControllerRef : Pod.t → option OwnerReference.t.
Variable IsDaemonSetPod : Pod.t → bool.

(** [cacheable uid pod]: the pod passes the guard of [SetUnschedulable] and
    its owning controller has identity [uid]. *)
Definition cacheable (uid : string) (pod : Pod.t) : bool :=
  match ControllerRef pod with
  | Some ref => bool_decide (OwnerReference.UID ref = uid) && negb (IsDaemonSetPod pod)
  | None => false
  end.

(** The signatures of the pods of a run that are cacheable under [uid], in
    the order of the run. *)
Definition submitted (uid : string) (pods : list Pod.t) : list SimilarPodsSchedulingInfo :=
  signature_of <$> filter (λ pod, cacheable uid pod = true) pods.

End CacheViews.

(** ** The error a panic would carry *)

(** On the recording snapshot with log [s], [err] is what the latest call
    reported: nothing after [Clear], the verdict after [AddNode] or
    [AddPod]. *)
Definition pending (verdict : list clustersnapshot.call → clustersnapshot.call
                              → option clustersnapshot.error)
  (s : list clustersnapshot.call) (err : option clustersnapshot.error) : Prop :=
  ∃ l c, s = l ++ [c]
         ∧ err = match c with
                 | clustersnapshot.CallClear => None
                 | _ => verdict l c
                 end.

(** ** Package main: the builders of nodes *)

(** [resource.Quantity] as its two constructors fix it: an amount, a decimal
    scale and a format. *)
Module resource.
Record Quantity := mk { value : Z; scale : Z; Format : string }.
#[global] Instance Quantity_eq_dec : EqDecision Quantity.
Proof. solve_decision. Defined.
Definition DecimalSI : string := "DecimalSI".
Definition NewQuantity (value : Z) (format : string) : Quantity :=
  {| value := value; scale := 0; Format := format |}.
Definition NewMilliQuantity (value : Z) (format : string) : Quantity :=
  {| value := value; scale := -3; Format := format |}.
End resource.

(** [CondType] is the field [Type]; a [time.Time] is an instant counted from
    the zero time. *)
Module NodeCondition.
Record t := mk {
  CondType : string;
  Status : string;
  LastHeartbeatTime : Z;
  LastTransitionTime : Z;
  Reason : string;
  Message : string }.
#[global] Instance eq_dec : EqDecision t.
Proof. solve_decision. Defined.
End NodeCondition.

Module Taint.
Record t := mk { Key : string; Value : string; Effect : string }.
#[global] Instance eq_dec : EqDecision t.
Proof. solve_decision. Defined.
End Taint.

(** An [apiv1.Node] with the fields the builders set: [Meta] holds the name
    and the labels, the rest is the self link, the specification (provider
    id, taints) and the status (capacity, allocatable, conditions).  The
    builders write to a node through a pointer; here a call maps the node to
    the node it leaves, and a node is taken to own its slices. *)
Module NodeObject.
Record t := mk {
  Meta : Node.t;
  SelfLink : string;
  ProviderID : string;
  Taints : list Taint.t;
  Capacity : gmap string resource.Quantity;
  Allocatable : gmap string resource.Quantity;
  Conditions : list NodeCondition.t }.
End NodeObject.

Module main.

Definition ResourcePods : string := "pods".
Definition ResourceCPU : string := "cpu".
Definition ResourceMemory : string := "memory".
Definition NodeReady : string := "Ready".
Definition ConditionTrue : string := "True".
Definition ConditionFalse : string := "False".
Definition TaintEffectNoSchedule : string := "NoSchedule".

(** [for k, v := range node.Status.Capacity { node.Status.Allocatable[k] = v }] *)
Definition copy_resources (capacity allocatable : gmap string resource.Quantity)
  : gmap string resource.Quantity :=
  map_fold (λ k v acc, <[k := v]> acc) allocatable capacity.

Definition BuildTestNode (name : string) (millicpu mem : Z) : NodeObject.t :=
  let capacity0 : gmap string resource.Quantity :=
    {[ ResourcePods := resource.NewQuantity 100 resource.DecimalSI ]} in
  let capacity1 :=
    if bool_decide (0 ≤ millicpu)%Z
    then <[ResourceCPU := resource.NewMilliQuantity millicpu resource.DecimalSI]> capacity0
    else capacity0 in
  let capacity2 :=
    if bool_decide (0 ≤ mem)%Z
    then <[ResourceMemory := resource.NewQuantity mem resource.DecimalSI]> capacity1
    else capacity1 in
  {| NodeObject.Meta := {| Node.Name := name; Node.Labels := {[ "name" := name ]} |};
     NodeObject.SelfLink := "/api/v1/nodes/" +:+ name;
     NodeObject.ProviderID := name;
     NodeObject.Taints := [];
     NodeObject.Capacity := capacity2;
     NodeObject.Allocatable := copy_resources capacity2 ∅;
     NodeObject.Conditions := [] |}.

Definition set_Conditions (node : NodeObject.t) (cs : list NodeCondition.t) : NodeObject.t :=
  {| NodeObject.Meta := NodeObject.Meta node;
     NodeObject.SelfLink := NodeObject.SelfLink node;
     NodeObject.ProviderID := NodeObject.ProviderID node;
     NodeObject.Taints := NodeObject.Taints node;
     NodeObject.Capacity := NodeObject.Capacity node;
     NodeObject.Allocatable := NodeObject.Allocatable node;
     NodeObject.Conditions := cs |}.

Definition set_Taints (node : NodeObject.t) (ts : list Taint.t) : NodeObject.t :=
  {| NodeObject.Meta := NodeObject.Meta node;
     NodeObject.SelfLink := NodeObject.SelfLink node;
     NodeObject.ProviderID := NodeObject.ProviderID node;
     NodeObject.Taints := ts;
     NodeObject.Capacity := NodeObject.Capacity node;
     NodeObject.Allocatable := NodeObject.Allocatable node;
     NodeObject.Conditions := NodeObject.Conditions node |}.

(** The loop of [SetNodeCondition]: the first condition of the type gets the
    transition time and the status, and the function returns; [None] when the
    loop ends without a match. *)
Fixpoint update_condition (cs : list NodeCondition.t) (conditionType status : string)
  (lastTransition : Z) : option (list NodeCondition.t) :=
  match cs with
  | [] => None
  | c :: rest =>
      if String.eqb (NodeCondition.CondType c) conditionType then
        Some ({| NodeCondition.CondType := NodeCondition.CondType c;
                 NodeCondition.Status := status;
                 NodeCondition.LastHeartbeatTime := NodeCondition.LastHeartbeatTime c;
                 NodeCondition.LastTransitionTime := lastTransition;
                 NodeCondition.Reason := NodeCondition.Reason c;
                 NodeCondition.Message := NodeCondition.Message c |} :: rest)
      else (λ rest', c :: rest') <$> update_condition rest conditionType status lastTransition
  end.

Definition SetNodeCondition (node : NodeObject.t) (conditionType status : string)
  (lastTransition : Z) : NodeObject.t :=
  match update_condition (NodeObject.Conditions node) conditionType status lastTransition with
  | Some cs => set_Conditions node cs
  | None =>
      let condition :=
        {| NodeCondition.CondType := conditionType;
           NodeCondition.Status := status;
           NodeCondition.LastHeartbeatTime := 0;
           NodeCondition.LastTransitionTime := lastTransition;
           NodeCondition.Reason := "";
           NodeCondition.Message := "" |} in
      set_Conditions node (NodeObject.Conditions node ++ [condition])
  end.

Definition not_ready_taint : Taint.t :=
  {| Taint.Key := "node.kubernetes.io/not-ready";
     Taint.Value := "true";
     Taint.Effect := TaintEffectNoSchedule |}.

Definition SetNodeReadyState (node : NodeObject.t) (ready : bool) (lastTransition : Z)
  : NodeObject.t :=
  if ready then SetNodeCondition node NodeReady ConditionTrue lastTransition
  else
    let node1 := SetNodeCondition node NodeReady ConditionFalse lastTransition in
    set_Taints node1 (NodeObject.Taints node1 ++ [not_ready_taint]).

Definition buildReadyNode (name : string) (cpu mem : Z) : NodeObject.t :=
  SetNodeReadyState (BuildTestNode name cpu mem) true 0.

(** The first condition of a type among [cs], if there is one. *)
Definition find_condition (cs : list NodeCondition.t) (conditionType : string)
  : option NodeCondition.t :=
  List.find (λ c, String.eqb (NodeCondition.CondType c) conditionType) cs.

End main.

(** ** More sample data *)

Module MoreSamples.

(** [web1] with a nil label map. *)
Definition unlabelled : Pod.t :=
  {| Pod.Name := "web-aaaaa"; Pod.Namespace := "default";
     Pod.Labels := None; Pod.Annotations := ∅;
     Pod.OwnerReferences := [Samples.web_rs];
     Pod.Spec := Pod.Spec Samples.web1;
     Pod.NominatedNodeName := "" |}.

(** A replica of another replica set. *)
Definition api_rs : OwnerReference.t :=
  {| OwnerReference.Kind := "ReplicaSet"; OwnerReference.Name := "api-7c4d";
     OwnerReference.UID := "uid-api"; OwnerReference.Controller := Some true |}.

Definition api1 : Pod.t :=
  {| Pod.Name := "api-hhhhh"; Pod.Namespace := "default";
     Pod.Labels := Some {[ "app" := "api" ]}; Pod.Annotations := ∅;
     Pod.OwnerReferences := [api_rs];
     Pod.Spec := Pod.Spec (Samples.web_pod "hhhhh" 15 16 "");
     Pod.NominatedNodeName := "" |}.

(** A node that reported not ready and under memory pressure. *)
Definition worn_node : NodeObject.t :=
  main.set_Conditions (main.BuildTestNode "n1" 4000 8192)
    [ {| NodeCondition.CondType := "MemoryPressure"; NodeCondition.Status := "True";
         NodeCondition.LastHeartbeatTime := 40; NodeCondition.LastTransitionTime := 30;
         NodeCondition.Reason := "KubeletHasInsufficientMemory";
         NodeCondition.Message := "kubelet has insufficient memory available" |};
      {| NodeCondition.CondType := "Ready"; NodeCondition.Status := "False";
         NodeCondition.LastHeartbeatTime := 40; NodeCondition.LastTransitionTime := 35;
         NodeCondition.Reason := "KubeletNotReady";
         NodeCondition.Message := "container runtime is down" |} ].

End MoreSamples.

(** * Properties *)

(** ** The loops of [dropProjectedVolumesAndMounts] in closed form *)

Lemma scan_volumes_kept vs acc :
  (fold_left volumes_step vs acc).1 = acc.1 ++ plain_volumes vs.
Proof.
  revert acc. induction vs as [|v vs IH]; intros acc; simpl.
  - by rewrite app_nil_r.
  - rewrite IH. unfold volumes_step, plain_volumes, is_projected.
    destruct (Volume.Projected v) as [src|] eqn:E; simpl.
    + rewrite filter_cons_False; [done|].
      rewrite E. rewrite bool_decide_eq_false. intros H. by apply H.
    + rewrite filter_cons_True.
      * by rewrite <- app_assoc.
      * rewrite E. rewrite bool_decide_eq_false. intros H. by apply H.
Qed.

Lemma scan_volumes_names vs acc k :
  index_bool (fold_left volumes_step vs acc).2 k = true
  ↔ index_bool acc.2 k = true ∨ k ∈ projected_names vs.
Proof.
  revert acc. induction vs as [|v vs IH]; intros acc; simpl.
  - unfold projected_names; simpl. split; [auto|]. intros [H|H]; [done|].
    by apply elem_of_nil in H.
  - rewrite IH. unfold volumes_step, projected_names, is_projected.
    destruct (Volume.Projected v) as [src|] eqn:E; simpl.
    + rewrite filter_cons_True by (rewrite E; by apply bool_decide_eq_true).
      rewrite fmap_cons, elem_of_cons. unfold index_bool.
      destruct (decide (Volume.Name v = k)) as [->|Hne].
      * rewrite lookup_insert_eq. simpl. tauto.
      * rewrite lookup_insert_ne by done. intuition congruence.
    + rewrite filter_cons_False; [done|].
      rewrite E. rewrite bool_decide_eq_true. intros H. by apply H.
Qed.

Lemma scan_volumes_spec vs k :
  (scan_volumes vs).1 = plain_volumes vs
  ∧ (index_bool (scan_volumes vs).2 k = true ↔ k ∈ projected_names vs).
Proof.
  unfold scan_volumes. split.
  - by rewrite scan_volumes_kept.
  - rewrite scan_volumes_names. simpl. unfold index_bool.
    rewrite lookup_empty. simpl. intuition congruence.
Qed.

Lemma keep_mounts_acc names ms acc :
  fold_left (mounts_step names) ms acc
  = acc ++ filter (λ m, index_bool names (VolumeMount.Name m) = false) ms.
Proof.
  revert acc. induction ms as [|m ms IH]; intros acc; simpl.
  - by rewrite app_nil_r.
  - rewrite IH. unfold mounts_step.
    destruct (index_bool names (VolumeMount.Name m)) eqn:E.
    + by rewrite filter_cons_False by (rewrite E; done).
    + rewrite filter_cons_True by done. by rewrite <- app_assoc.
Qed.

Lemma keep_mounts_spec vs ms :
  keep_mounts (scan_volumes vs).2 ms = plain_mounts (projected_names vs) ms.
Proof.
  unfold keep_mounts. rewrite keep_mounts_acc. simpl.
  unfold plain_mounts. apply list_filter_iff. intros m.
  rewrite <- (proj2 (scan_volumes_spec vs (VolumeMount.Name m))).
  by destruct (index_bool _ _).
Qed.

Lemma drop_at_fold names a suf : ∀ pre (h : heap),
  h !! a = Some (pre ++ suf) →
  fold_left (drop_at names a) (seq (length pre) (length suf)) h
  = <[a := pre ++ (strip_by names <$> suf)]> h.
Proof.
  induction suf as [|c suf IH]; intros pre h Hh; simpl.
  - rewrite app_nil_r in *. by rewrite insert_id.
  - unfold drop_at at 2. rewrite Hh. simpl.
    rewrite list_lookup_middle by done.
    rewrite insert_app_r_alt by done. rewrite Nat.sub_diag. simpl.
    replace (S (length pre)) with (length (pre ++ [strip_by names c]))
      by (rewrite length_app; simpl; lia).
    rewrite IH.
    + rewrite insert_insert_eq. by rewrite <- app_assoc.
    + rewrite lookup_insert_eq. by rewrite <- app_assoc.
Qed.

Lemma drop_mounts_in_spec names s h :
  drop_mounts_in names s h = strip_at (strip_by names) s h.
Proof.
  destruct s as [a|]; [|done]. simpl.
  destruct (h !! a) as [arr|] eqn:E; simpl; [|done].
  by apply (drop_at_fold names a arr []).
Qed.

Lemma load_strip_at f s h s' :
  load (strip_at f s h) s' = if decide (s' = s) then f <$> load h s' else load h s'.
Proof.
  case_decide as Hd.
  - subst s'. destruct s as [a|]; simpl; [|done].
    destruct (h !! a) as [arr|] eqn:E; simpl.
    + by rewrite lookup_insert_eq.
    + by rewrite E.
  - destruct s as [a|]; simpl; [|done].
    destruct (h !! a) as [arr|] eqn:E; [|done].
    destruct s' as [b|]; simpl; [|done].
    rewrite lookup_insert_ne; [done|congruence].
Qed.


(** ** Sanitisation against its value-level reading *)

Lemma strip_by_spec vs c :
  strip_by (scan_volumes vs).2 c = strip_container (projected_names vs) c.
Proof. unfold strip_by, strip_container. by rewrite keep_mounts_spec. Qed.

Lemma strip_at_ext f g s h :
  (∀ c, f c = g c) → strip_at f s h = strip_at g s h.
Proof.
  intros Hfg. destruct s as [a|]; simpl; [|done].
  destruct (h !! a) as [arr|]; [|done].
  f_equal. apply list_fmap_ext. auto.
Qed.

Lemma sanitizePodSpec_spec s h :
  sanitizePodSpec s h
  = (dropHostname (set_Volumes s (plain_volumes (PodSpec.Volumes s))),
     strip_at (strip_of s) (PodSpec.InitContainers s)
       (strip_at (strip_of s) (PodSpec.Containers s) h)).
Proof.
  unfold sanitizePodSpec, dropProjectedVolumesAndMounts.
  pose proof (proj1 (scan_volumes_spec (PodSpec.Volumes s) "")) as Hk.
  pose proof (strip_by_spec (PodSpec.Volumes s)) as Hs.
  destruct (scan_volumes (PodSpec.Volumes s)) as [volumes names].
  simpl in *. subst volumes.
  rewrite !drop_mounts_in_spec.
  rewrite (strip_at_ext (strip_by names) (strip_of s)) by done.
  by rewrite (strip_at_ext (strip_by names) (strip_of s)) by done.
Qed.

(** Dropping mounts is idempotent, commutes, and depends on the names only
    through membership. *)
Lemma plain_mounts_comm ns ms l :
  plain_mounts ns (plain_mounts ms l) = plain_mounts ms (plain_mounts ns l).
Proof.
  unfold plain_mounts. rewrite !list_filter_filter.
  apply list_filter_iff. intros m. tauto.
Qed.

Lemma plain_mounts_idem ns l :
  plain_mounts ns (plain_mounts ns l) = plain_mounts ns l.
Proof.
  unfold plain_mounts. rewrite list_filter_filter.
  apply list_filter_iff. intros m. tauto.
Qed.

Lemma plain_mounts_ext ns ms l :
  (∀ k, k ∈ ns ↔ k ∈ ms) → plain_mounts ns l = plain_mounts ms l.
Proof.
  intros H. unfold plain_mounts. apply list_filter_iff. intros m.
  by rewrite H.
Qed.

Lemma strip_comm ns ms (l : list Container.t) :
  strip_container ns <$> (strip_container ms <$> l)
  = strip_container ms <$> (strip_container ns <$> l).
Proof.
  rewrite <- !list_fmap_compose. apply list_fmap_ext. intros _ c _.
  unfold strip_container, set_VolumeMounts; simpl.
  by rewrite plain_mounts_comm.
Qed.

Lemma strip_idem ns (l : list Container.t) :
  strip_container ns <$> (strip_container ns <$> l) = strip_container ns <$> l.
Proof.
  rewrite <- !list_fmap_compose. apply list_fmap_ext. intros _ c _.
  unfold strip_container, set_VolumeMounts; simpl.
  by rewrite plain_mounts_idem.
Qed.

Lemma strip_ext ns ms (l : list Container.t) :
  (∀ k, k ∈ ns ↔ k ∈ ms) → strip_container ns <$> l = strip_container ms <$> l.
Proof.
  intros H. apply list_fmap_ext. intros _ c _.
  unfold strip_container. by rewrite (plain_mounts_ext ns ms).
Qed.

(** What a slice holds after [sanitizePodSpec s]: the arrays of [s] are
    cleaned with the names of [s], every other array is as before. *)
Lemma load_sanitize s h x :
  load (sanitizePodSpec s h).2 x
  = if decide (x = PodSpec.Containers s ∨ x = PodSpec.InitContainers s)
    then strip_of s <$> load h x else load h x.
Proof.
  rewrite sanitizePodSpec_spec. simpl. rewrite !load_strip_at.
  unfold strip_of.
  repeat case_decide; try done; try tauto.
  by rewrite strip_idem.
Qed.

Lemma sanitize_copy s h :
  (sanitizePodSpec s h).1
  = dropHostname (set_Volumes s (plain_volumes (PodSpec.Volumes s))).
Proof. by rewrite sanitizePodSpec_spec. Qed.

(** The sanitised copy, read in a store where the arrays of [s] are already
    clean, is the sanitised value of [s]. *)
Lemma deref_copy s h0 h :
  strip_of s <$> load h (PodSpec.Containers s) = load h (PodSpec.Containers s) →
  strip_of s <$> load h (PodSpec.InitContainers s) = load h (PodSpec.InitContainers s) →
  deref h (sanitizePodSpec s h0).1 = sanitized (deref h s).
Proof.
  intros HC HI. rewrite sanitize_copy.
  unfold deref, sanitized; simpl. fold (names_of s). fold (strip_of s).
  by rewrite HC, HI.
Qed.

Lemma clean_after_sanitize s h x :
  x = PodSpec.Containers s ∨ x = PodSpec.InitContainers s →
  strip_of s <$> load (sanitizePodSpec s h).2 x = load (sanitizePodSpec s h).2 x.
Proof.
  intros Hx. rewrite load_sanitize. rewrite decide_True by done.
  apply strip_idem.
Qed.

Lemma clean_preserved ns s h x :
  strip_container ns <$> load h x = load h x →
  strip_container ns <$> load (sanitizePodSpec s h).2 x = load (sanitizePodSpec s h).2 x.
Proof.
  intros Hx. rewrite load_sanitize. case_decide; [|done].
  unfold strip_of. rewrite strip_comm. by rewrite Hx.
Qed.

(** [PodSpecSemanticallyEqual] compares the sanitised values of its two
    arguments as the store holds them once both have been sanitised. *)
Lemma PodSpecSemanticallyEqual_post p1 p2 h :
  let h2 := (PodSpecSemanticallyEqual p1 p2 h).2 in
  (PodSpecSemanticallyEqual p1 p2 h).1
  = Semantic_DeepEqual_value (sanitized (deref h2 p1)) (sanitized (deref h2 p2))
  ∧ h2 = (sanitizePodSpec p2 (sanitizePodSpec p1 h).2).2.
Proof.
  cbv zeta. unfold PodSpecSemanticallyEqual.
  destruct (sanitizePodSpec p1 h) as [s1 h1] eqn:E1.
  destruct (sanitizePodSpec p2 h1) as [s2 h2] eqn:E2. simpl.
  split; [|by rewrite E2]. unfold Semantic_DeepEqual.
  assert (h1 = (sanitizePodSpec p1 h).2) as Hh1 by (by rewrite E1).
  assert (h2 = (sanitizePodSpec p2 h1).2) as Hh2 by (by rewrite E2).
  assert (s1 = (sanitizePodSpec p1 h).1) as -> by (by rewrite E1).
  assert (s2 = (sanitizePodSpec p2 h1).1) as -> by (by rewrite E2).
  rewrite (deref_copy p1 h h2), (deref_copy p2 h1 h2); [done|..].
  - rewrite Hh2. by apply clean_after_sanitize; left.
  - rewrite Hh2. by apply clean_after_sanitize; right.
  - rewrite Hh2. apply clean_preserved. rewrite Hh1.
    by apply clean_after_sanitize; left.
  - rewrite Hh2. apply clean_preserved. rewrite Hh1.
    by apply clean_after_sanitize; right.
Qed.

(** ** Semantic equality is an equivalence *)

Lemma Semantic_DeepEqual_value_true a b :
  Semantic_DeepEqual_value a b = true
  ↔ SpecValue.Volumes a = SpecValue.Volumes b
    ∧ SpecValue.InitContainers a = SpecValue.InitContainers b
    ∧ SpecValue.Containers a = SpecValue.Containers b
    ∧ SpecValue.EphemeralContainers a = SpecValue.EphemeralContainers b
    ∧ default ∅ (SpecValue.NodeSelector a) = default ∅ (SpecValue.NodeSelector b)
    ∧ SpecValue.NodeName a = SpecValue.NodeName b
    ∧ SpecValue.Hostname a = SpecValue.Hostname b.
Proof.
  unfold Semantic_DeepEqual_value, semantic_map_eq.
  rewrite !andb_true_iff, !bool_decide_eq_true. tauto.
Qed.

Lemma Semantic_DeepEqual_value_refl a : Semantic_DeepEqual_value a a = true.
Proof. by apply Semantic_DeepEqual_value_true. Qed.

Lemma Semantic_DeepEqual_value_sym a b :
  Semantic_DeepEqual_value a b = true → Semantic_DeepEqual_value b a = true.
Proof. rewrite !Semantic_DeepEqual_value_true. intuition congruence. Qed.

Lemma Semantic_DeepEqual_value_trans a b c :
  Semantic_DeepEqual_value a b = true → Semantic_DeepEqual_value b c = true →
  Semantic_DeepEqual_value a c = true.
Proof. rewrite !Semantic_DeepEqual_value_true. intuition congruence. Qed.

(** ** Sanitising one specification, seen from another *)

(** The sanitised value of [s1] does not change when a coherent [s2] is
    sanitised in place. *)
Lemma sanitized_frame s1 s2 h :
  coherent s1 s2 →
  sanitized (deref (sanitizePodSpec s2 h).2 s1) = sanitized (deref h s1).
Proof.
  intros Hco.
  assert (∀ x, x = PodSpec.Containers s1 ∨ x = PodSpec.InitContainers s1 →
    strip_of s1 <$> load (sanitizePodSpec s2 h).2 x = strip_of s1 <$> load h x) as Hx.
  { intros x Hx. rewrite load_sanitize. case_decide as Hd; [|done].
    destruct x as [a|]; [|done].
    assert (∀ k, k ∈ names_of s2 ↔ k ∈ names_of s1) as Hn.
    { intros k. symmetry. apply Hco. exists a. unfold owns.
      split; destruct Hx, Hd; auto. }
    unfold strip_of. rewrite (strip_ext _ _ _ Hn). apply strip_idem. }
  unfold sanitized, deref; simpl. fold (names_of s1). fold (strip_of s1).
  rewrite (Hx (PodSpec.Containers s1)) by auto.
  by rewrite (Hx (PodSpec.InitContainers s1)) by auto.
Qed.

Lemma coherent_refl s : coherent s s.
Proof. by intros _ k. Qed.

Lemma coherent_sym s1 s2 : coherent s1 s2 → coherent s2 s1.
Proof.
  intros H [a [H2 H1]] k. symmetry. apply H. by exists a.
Qed.

Lemma separate_coherent s1 s2 : separate s1 s2 → coherent s1 s2.
Proof. intros H [a [H1 H2]]. by destruct (H a H1). Qed.


(** ** [Match] *)

Lemma Match_labels_differ psi pod h :
  Pod.Labels pod ≠ labels psi → Match psi pod h = (false, h).
Proof.
  intros Hne. unfold Match, reflect_DeepEqual.
  by rewrite bool_decide_eq_false_2.
Qed.

Lemma Match_labels_equal psi pod h :
  Pod.Labels pod = labels psi →
  Match psi pod h = PodSpecSemanticallyEqual (Pod.Spec pod) (spec psi) h.
Proof.
  intros Heq. unfold Match, reflect_DeepEqual.
  by rewrite bool_decide_eq_true_2.
Qed.

Lemma Match_post psi pod h :
  (Match psi pod h).1 = true ↔ equivalent (Match psi pod h).2 psi pod.
Proof.
  unfold equivalent.
  destruct (decide (Pod.Labels pod = labels psi)) as [Heq|Hne].
  - rewrite Match_labels_equal by done.
    rewrite (proj1 (PodSpecSemanticallyEqual_post _ _ h)). tauto.
  - rewrite Match_labels_differ by done. simpl. split; [done|tauto].
Qed.


Lemma Match_frame psi pod h s :
  coherent s (Pod.Spec pod) → coherent s (spec psi) →
  sanitized (deref (Match psi pod h).2 s) = sanitized (deref h s).
Proof.
  intros H1 H2.
  destruct (decide (Pod.Labels pod = labels psi)) as [Heq|Hne].
  - rewrite Match_labels_equal by done.
    rewrite (proj2 (PodSpecSemanticallyEqual_post _ _ h)).
    by rewrite !sanitized_frame.
  - by rewrite Match_labels_differ.
Qed.

Lemma equivalent_frame psi pod h h' :
  sanitized (deref h' (Pod.Spec pod)) = sanitized (deref h (Pod.Spec pod)) →
  sanitized (deref h' (spec psi)) = sanitized (deref h (spec psi)) →
  equivalent h' psi pod ↔ equivalent h psi pod.
Proof. intros H1 H2. unfold equivalent. by rewrite H1, H2. Qed.

Lemma Match_pre psi pod h :
  coherent (Pod.Spec pod) (spec psi) →
  (Match psi pod h).1 = true ↔ equivalent h psi pod.
Proof.
  intros Hco. rewrite Match_post. apply equivalent_frame.
  - apply Match_frame; [apply coherent_refl|done].
  - apply Match_frame; [by apply coherent_sym|apply coherent_refl].
Qed.

Lemma Match_self pod h : (Match (signature_of pod) pod h).1 = true.
Proof.
  apply Match_post. split; [done|]. apply Semantic_DeepEqual_value_refl.
Qed.

Lemma samples_separate (i j m n : positive) s t x y :
  i ≠ m → i ≠ n → j ≠ m → j ≠ n →
  coherent (Pod.Spec (Samples.web_pod s i j x)) (Pod.Spec (Samples.web_pod t m n y)).
Proof.
  intros Him Hin Hjm Hjn. apply separate_coherent.
  intros a [H1|H1] [H2|H2]; simpl in H1, H2; congruence.
Qed.



(** When no ephemeral container mounts anything, the two readings of
    "differ only in projected volumes and their mounts" agree. *)
Lemma differ_only_no_ephemeral_mounts v w :
  Forall (λ c, EphemeralContainer.VolumeMounts c = []) (SpecValue.EphemeralContainers v) →
  Forall (λ c, EphemeralContainer.VolumeMounts c = []) (SpecValue.EphemeralContainers w) →
  differ_only_in_projected v w → differ_only_in_stripped v w.
Proof.
  intros Hv Hw (HV & HI & HC & HE & HN & HM).
  repeat split; try done.
  clear -Hv Hw HE.
  induction HE as [|c d l k (H1 & H2 & H3 & _) _ IH]; [done|].
  apply Forall_cons in Hv as [Hc Hv]. apply Forall_cons in Hw as [Hd Hw].
  f_equal; [|by apply IH].
  destruct c, d; simpl in *; congruence.
Qed.




(** ** The lookup loop *)

Lemma match_any_post infos pod h :
  (match_any infos pod h).1 = true →
  ∃ info, info ∈ infos ∧ equivalent (match_any infos pod h).2 info pod.
Proof.
  revert h. induction infos as [|info rest IH]; intros h; simpl; [done|].
  destruct (Match info pod h) as [b h1] eqn:E.
  destruct b; simpl.
  - intros _. exists info. split; [apply list_elem_of_here|].
    replace h1 with (Match info pod h).2 by (by rewrite E).
    apply Match_post. by rewrite E.
  - intros H. destruct (IH h1 H) as (i & Hi & He).
    exists i. split; [by apply list_elem_of_further|done].
Qed.

Lemma match_any_pre infos pod h :
  coherent_family (Pod.Spec pod) infos →
  (match_any infos pod h).1 = true ↔ ∃ info, info ∈ infos ∧ equivalent h info pod.
Proof.
  revert h. induction infos as [|info rest IH]; intros h [Hq Hij]; simpl.
  - split; [done|]. intros (i & Hi & _). by apply elem_of_nil in Hi.
  - assert (coherent (Pod.Spec pod) (spec info)) as Hco
      by (apply coherent_sym, Hq, list_elem_of_here).
    pose proof (Match_pre info pod h Hco) as Hm.
    destruct (Match info pod h) as [b h1] eqn:E. simpl in Hm.
    destruct b; simpl.
    + split; [|done]. intros _. exists info.
      split; [apply list_elem_of_here|by apply Hm].
    + assert (coherent_family (Pod.Spec pod) rest) as Hrest.
      { split.
        - intros i Hi. apply Hq. by apply list_elem_of_further.
        - intros i j Hi Hj. apply Hij; by apply list_elem_of_further. }
      rewrite (IH h1 Hrest).
      assert (∀ i, i ∈ rest → equivalent h1 i pod ↔ equivalent h i pod) as Hfr.
      { intros i Hi. replace h1 with (Match info pod h).2 by (by rewrite E).
        apply equivalent_frame; apply Match_frame.
        - apply coherent_refl.
        - done.
        - apply Hq. by apply list_elem_of_further.
        - apply Hij; [by apply list_elem_of_further|apply list_elem_of_here]. }
      split.
      * intros (i & Hi & He). exists i.
        split; [by apply list_elem_of_further|by apply Hfr].
      * intros (i & Hi & He). apply elem_of_cons in Hi as [->|Hi].
        -- apply Hm in He. discriminate.
        -- exists i. split; [done|by apply Hfr].
Qed.

Lemma match_any_stored pm pod h :
  (match_any (pm ++ [signature_of pod]) pod h).1 = true.
Proof.
  revert h. induction pm as [|info rest IH]; intros h; simpl.
  - pose proof (Match_self pod h) as Hs.
    destruct (Match (signature_of pod) pod h) as [b h1]. simpl in Hs.
    by subst b.
  - destruct (Match info pod h) as [b h1]. destruct b; [done|apply IH].
Qed.

(** ** [SetUnschedulable] and [IsSimilarUnschedulable] *)

Section CacheProperties.

Variable ControllerRef : Pod.t → option OwnerReference.t.
Variable IsDaemonSetPod : Pod.t → bool.

Lemma SetUnschedulable_skip p pod :
  ControllerRef pod = None ∨ IsDaemonSetPod pod = true →
  SetUnschedulable ControllerRef IsDaemonSetPod p pod = p.
Proof.
  intros H. unfold SetUnschedulable.
  destruct (ControllerRef pod) as [ref|]; [|done].
  destruct H as [H|H]; [done|]. by rewrite H.
Qed.

Lemma SetUnschedulable_full p pod ref :
  ControllerRef pod = Some ref → IsDaemonSetPod pod = false →
  (maxPodsPerOwnerRef ≤ length (index_items p (OwnerReference.UID ref)))%nat →
  SetUnschedulable ControllerRef IsDaemonSetPod p pod
  = {| items := items p;
       overflowingControllers :=
         <[OwnerReference.UID ref := true]> (overflowingControllers p) |}.
Proof.
  intros Hr Hd Hl. unfold SetUnschedulable. rewrite Hr, Hd.
  by rewrite bool_decide_eq_true_2.
Qed.

Lemma SetUnschedulable_room p pod ref :
  ControllerRef pod = Some ref → IsDaemonSetPod pod = false →
  (length (index_items p (OwnerReference.UID ref)) < maxPodsPerOwnerRef)%nat →
  SetUnschedulable ControllerRef IsDaemonSetPod p pod
  = {| items := <[OwnerReference.UID ref :=
                    index_items p (OwnerReference.UID ref) ++ [signature_of pod]]> (items p);
       overflowingControllers := overflowingControllers p |}.
Proof.
  intros Hr Hd Hl. unfold SetUnschedulable. rewrite Hr, Hd.
  rewrite bool_decide_eq_false_2; [done|lia].
Qed.

Local Abbreviation SetUnschedulable := (SetUnschedulable ControllerRef IsDaemonSetPod).
Local Abbreviation IsSimilarUnschedulable := (IsSimilarUnschedulable ControllerRef).
Local Abbreviation reachable := (reachable ControllerRef IsDaemonSetPod).
Local Abbreviation overflow_mark := (overflow_mark ControllerRef IsDaemonSetPod).
Local Abbreviation run := (run ControllerRef IsDaemonSetPod).

(** The three ways a call of [SetUnschedulable] can go. *)
Lemma SetUnschedulable_cases p pod :
  (SetUnschedulable p pod = p
     ∧ (ControllerRef pod = None ∨ IsDaemonSetPod pod = true))
  ∨ (∃ ref, ControllerRef pod = Some ref ∧ IsDaemonSetPod pod = false
       ∧ (maxPodsPerOwnerRef ≤ length (index_items p (OwnerReference.UID ref)))%nat
       ∧ SetUnschedulable p pod
         = {| items := items p;
              overflowingControllers :=
                <[OwnerReference.UID ref := true]> (overflowingControllers p) |})
  ∨ (∃ ref, ControllerRef pod = Some ref ∧ IsDaemonSetPod pod = false
       ∧ (length (index_items p (OwnerReference.UID ref)) < maxPodsPerOwnerRef)%nat
       ∧ SetUnschedulable p pod
         = {| items := <[OwnerReference.UID ref :=
                index_items p (OwnerReference.UID ref) ++ [signature_of pod]]> (items p);
              overflowingControllers := overflowingControllers p |}).
Proof.
  destruct (ControllerRef pod) as [ref|] eqn:Hr.
  - destruct (IsDaemonSetPod pod) eqn:Hd.
    + left. split; [apply SetUnschedulable_skip|]; auto.
    + destruct (decide (maxPodsPerOwnerRef ≤ length (index_items p (OwnerReference.UID ref)))%nat)
        as [Hl|Hl].
      * right; left. exists ref. repeat split; try done.
        by apply SetUnschedulable_full.
      * right; right. exists ref. repeat split; try done; [lia|].
        apply SetUnschedulable_room; try done. lia.
  - left. split; [apply SetUnschedulable_skip|]; auto.
Qed.

Lemma index_items_insert p uid l u ov :
  index_items {| items := <[uid := l]> (items p); overflowingControllers := ov |} u
  = if decide (uid = u) then l else index_items p u.
Proof.
  unfold index_items; simpl. case_decide as Hd.
  - subst. by rewrite lookup_insert_eq.
  - by rewrite lookup_insert_ne.
Qed.

(** Every stored signature was built from a pod that has this controller
    identity and is not a daemon-set pod. *)
Lemma reachable_provenance p :
  reachable p → ∀ uid i, i ∈ index_items p uid →
  ∃ pod ref, ControllerRef pod = Some ref ∧ OwnerReference.UID ref = uid
             ∧ IsDaemonSetPod pod = false ∧ i = signature_of pod.
Proof.
  induction 1 as [|p pod Hp IH]; intros uid i Hi.
  - unfold index_items, NewSimilarPodsScheduling in Hi; simpl in Hi.
    rewrite lookup_empty in Hi. by apply elem_of_nil in Hi.
  - destruct (SetUnschedulable_cases p pod)
      as [[Hs _]|[(ref & _ & _ & _ & Hs)|(ref & Hr & Hd & Hl & Hs)]];
      rewrite Hs in Hi.
    + by apply IH.
    + by apply IH.
    + rewrite index_items_insert in Hi. case_decide as Hu; [|by apply IH].
      apply elem_of_app in Hi as [Hi|Hi].
      * subst uid. by apply IH.
      * apply list_elem_of_singleton in Hi. subst i. by exists pod, ref.
Qed.

Lemma run_reachable p pods : reachable p → reachable (run p pods).1.
Proof.
  revert p. induction pods as [|pod rest IH]; intros p Hp; simpl; [done|].
  specialize (IH (SetUnschedulable p pod) (reachable_set _ _ p pod Hp)).
  by destruct (run (SetUnschedulable p pod) rest).
Qed.

Lemma run_app p pods1 pods2 :
  (run p (pods1 ++ pods2)).1 = (run (run p pods1).1 pods2).1.
Proof.
  revert p. induction pods1 as [|pod rest IH]; intros p; simpl; [done|].
  specialize (IH (SetUnschedulable p pod)).
  destruct (run (SetUnschedulable p pod) (rest ++ pods2)).
  destruct (run (SetUnschedulable p pod) rest). simpl in *. done.
Qed.

Lemma reachable_run p :
  reachable p ↔ ∃ pods, p = (run NewSimilarPodsScheduling pods).1.
Proof.
  split.
  - induction 1 as [|p pod Hp [pods ->]].
    + by exists [].
    + exists (pods ++ [pod]). rewrite run_app. simpl. done.
  - intros [pods ->]. apply run_reachable. constructor.
Qed.

(** A signature found after a run was there before, or was built from one
    of the pods of the run. *)
Lemma run_provenance pods : ∀ p uid i,
  i ∈ index_items (run p pods).1 uid →
  i ∈ index_items p uid
  ∨ ∃ pod ref, pod ∈ pods ∧ ControllerRef pod = Some ref
               ∧ OwnerReference.UID ref = uid
               ∧ IsDaemonSetPod pod = false ∧ i = signature_of pod.
Proof.
  induction pods as [|pod rest IH]; intros p uid i; simpl; [auto|].
  specialize (IH (SetUnschedulable p pod) uid i).
  destruct (run (SetUnschedulable p pod) rest) as [p' marks]. simpl in *.
  intros Hi. destruct (IH Hi) as [Hin|(q & ref & Hq & Hrest)].
  - destruct (SetUnschedulable_cases p pod)
      as [[Hs _]|[(ref & _ & _ & _ & Hs)|(ref & Hr & Hd & Hl & Hs)]];
      rewrite Hs in Hin; try by left.
    rewrite index_items_insert in Hin. case_decide as Hu; [|by left].
    apply elem_of_app in Hin as [Hin|Hin]; [subst uid; by left|].
    apply list_elem_of_singleton in Hin. subst i.
    right. exists pod, ref. split; [apply list_elem_of_here|done].
  - right. exists q, ref. split; [by apply list_elem_of_further|done].
Qed.

Lemma IsSimilarUnschedulable_no_ref p pod h :
  ControllerRef pod = None → IsSimilarUnschedulable p pod h = (false, h).
Proof. intros H. unfold IsSimilarUnschedulable. by rewrite H. Qed.

Lemma IsSimilarUnschedulable_ref p pod ref h :
  ControllerRef pod = Some ref →
  IsSimilarUnschedulable p pod h
  = match_any (index_items p (OwnerReference.UID ref)) pod h.
Proof.
  intros H. unfold IsSimilarUnschedulable, index_items. rewrite H.
  by destruct (items p !! OwnerReference.UID ref).
Qed.

(** C3, as amended.  For a pod that has an owning controller and is not a
    daemon-set pod, when the controller already has [maxPodsPerOwnerRef]
    stored signatures, [SetUnschedulable] marks the controller as overflowing
    and leaves the stored signatures as they are.  After a controller is
    overflowing, [IsSimilarUnschedulable] returns false for a pod to which
    no signature stored for that controller is equivalent, provided the pod
    and the stored signatures are coherent: any two of them that share a
    container array have the same projected-volume names. *)
Theorem C3_overflow_and_no_false_positive :
  (∀ p pod ref,
     ControllerRef pod = Some ref → IsDaemonSetPod pod = false →
     (maxPodsPerOwnerRef ≤ length (index_items p (OwnerReference.UID ref)))%nat →
     overflowingControllers (SetUnschedulable p pod) !! OwnerReference.UID ref = Some true
     ∧ items (SetUnschedulable p pod) = items p)
  ∧ (∀ p pod ref h,
       ControllerRef pod = Some ref →
       overflowingControllers p !! OwnerReference.UID ref = Some true →
       coherent_family (Pod.Spec pod) (index_items p (OwnerReference.UID ref)) →
       (∀ info, info ∈ index_items p (OwnerReference.UID ref) → ¬ equivalent h info pod) →
       (IsSimilarUnschedulable p pod h).1 = false).
Proof.
  split.
  - intros p pod ref Hr Hd Hl.
    rewrite (SetUnschedulable_full p pod ref Hr Hd Hl). simpl.
    by rewrite lookup_insert_eq.
  - intros p pod ref h Hr _ Hco Hnone.
    rewrite (IsSimilarUnschedulable_ref p pod ref h Hr).
    apply not_true_is_false. intros Ht.
    apply match_any_pre in Ht as (info & Hi & He); [|done].
    by apply (Hnone info).
Qed.

(** A lookup that returns true has found a stored signature that is
    equivalent to the pod in the store as the call leaves it. *)
Lemma IsSimilarUnschedulable_post p pod h :
  (IsSimilarUnschedulable p pod h).1 = true →
  ∃ ref info, ControllerRef pod = Some ref
    ∧ info ∈ index_items p (OwnerReference.UID ref)
    ∧ equivalent (IsSimilarUnschedulable p pod h).2 info pod.
Proof.
  intros Ht.
  destruct (ControllerRef pod) as [ref|] eqn:Hr.
  - rewrite (IsSimilarUnschedulable_ref p pod ref h Hr) in *.
    destruct (match_any_post _ _ _ Ht) as (info & Hi & He).
    by exists ref, info.
  - by rewrite IsSimilarUnschedulable_no_ref in Ht.
Qed.

(** C4, as amended.  [SetUnschedulable] leaves the cache as it is for a
    daemon-set pod and for a pod with no owning controller.
    [IsSimilarUnschedulable] returns false, and touches nothing, for a pod
    with no owning controller; for a pod with one, it does so after any run
    in which every pod of that controller identity was a daemon-set pod. *)
Theorem C4_skipped_pods :
  (∀ p pod, ControllerRef pod = None ∨ IsDaemonSetPod pod = true →
     SetUnschedulable p pod = p)
  ∧ (∀ p pod h, ControllerRef pod = None →
       IsSimilarUnschedulable p pod h = (false, h))
  ∧ (∀ pods pod ref h,
       ControllerRef pod = Some ref → IsDaemonSetPod pod = true →
       (∀ q refq, q ∈ pods → ControllerRef q = Some refq →
          OwnerReference.UID refq = OwnerReference.UID ref →
          IsDaemonSetPod q = true) →
       IsSimilarUnschedulable (run NewSimilarPodsScheduling pods).1 pod h = (false, h)).
Proof.
  split; [apply SetUnschedulable_skip|].
  split; [apply IsSimilarUnschedulable_no_ref|].
  intros pods pod ref h Hr _ Hall.
  rewrite (IsSimilarUnschedulable_ref _ pod ref h Hr).
  assert (index_items (run NewSimilarPodsScheduling pods).1 (OwnerReference.UID ref) = [])
    as ->; [|done].
  destruct (index_items _ _) as [|i l] eqn:E; [done|].
  assert (i ∈ index_items (run NewSimilarPodsScheduling pods).1 (OwnerReference.UID ref))
    as Hi by (rewrite E; apply list_elem_of_here).
  apply run_provenance in Hi as [Hi|(q & refq & Hq & Hrq & Hu & Hd & _)].
  - unfold index_items, NewSimilarPodsScheduling in Hi. simpl in Hi.
    rewrite lookup_empty in Hi. by apply elem_of_nil in Hi.
  - rewrite (Hall q refq Hq Hrq Hu) in Hd. discriminate.
Qed.

(** C7, as amended.  In every reachable cache state each controller's list
    of stored signatures has at most [maxPodsPerOwnerRef] entries. *)
Theorem C7_stored_lists_bounded p uid :
  reachable p → (length (index_items p uid) ≤ 10)%nat.
Proof.
  intros Hp. revert uid.
  induction Hp as [|p pod Hp IH]; intros uid.
  - unfold index_items, NewSimilarPodsScheduling; simpl.
    rewrite lookup_empty. simpl. lia.
  - destruct (SetUnschedulable_cases p pod)
      as [[-> _]|[(ref & _ & _ & _ & ->)|(ref & _ & _ & Hl & ->)]].
    + apply IH.
    + apply IH.
    + rewrite index_items_insert. case_decide; [|apply IH].
      rewrite length_app. simpl. unfold maxPodsPerOwnerRef in Hl. lia.
Qed.

(** C9.  Store, then look up: for a pod with an owning controller that is
    not a daemon-set pod and whose controller has fewer than
    [maxPodsPerOwnerRef] stored signatures, [IsSimilarUnschedulable] after
    [SetUnschedulable] returns true. *)
Theorem C9_store_then_lookup p pod ref h :
  ControllerRef pod = Some ref → IsDaemonSetPod pod = false →
  (length (index_items p (OwnerReference.UID ref)) < 10)%nat →
  (IsSimilarUnschedulable (SetUnschedulable p pod) pod h).1 = true.
Proof.
  intros Hr Hd Hl.
  rewrite (IsSimilarUnschedulable_ref _ pod ref h Hr).
  rewrite (SetUnschedulable_room p pod ref Hr Hd Hl).
  rewrite index_items_insert. rewrite decide_True by done.
  apply match_any_stored.
Qed.

(** [overflow_mark] tells what a call does to the overflow marks. *)
Lemma overflow_mark_spec p pod :
  overflowingControllers (SetUnschedulable p pod)
  = match overflow_mark p pod with
    | Some uid => <[uid := true]> (overflowingControllers p)
    | None => overflowingControllers p
    end.
Proof.
  unfold overflow_mark.
  destruct (SetUnschedulable_cases p pod)
    as [[-> [Hr|Hd]]|[(ref & Hr & Hd & Hl & ->)|(ref & Hr & Hd & Hl & ->)]].
  - by rewrite Hr.
  - rewrite Hd. by destruct (ControllerRef pod).
  - rewrite Hr, Hd. by rewrite bool_decide_eq_true_2.
  - rewrite Hr, Hd. rewrite bool_decide_eq_false_2; [done|lia].
Qed.

Lemma run_marks pods : ∀ p,
  dom (overflowingControllers (run p pods).1)
  = dom (overflowingControllers p) ∪ list_to_set (run p pods).2.
Proof.
  induction pods as [|pod rest IH]; intros p; simpl.
  - set_solver.
  - specialize (IH (SetUnschedulable p pod)).
    destruct (run (SetUnschedulable p pod) rest) as [p' marks]. simpl in *.
    rewrite IH, overflow_mark_spec.
    destruct (overflow_mark p pod) as [uid|]; [|done].
    rewrite dom_insert_L. set_solver.
Qed.

(** C10.  A call of [SetUnschedulable] that marks a controller already
    marked leaves [OverflowingControllerCount] as it is, one that marks a new
    controller adds one, and a call that marks none leaves it as it is; so
    after any run from a fresh cache the count is the number of distinct
    controller identities marked during the run. *)
Theorem C10_each_controller_counted_once :
  (∀ p pod,
     OverflowingControllerCount (SetUnschedulable p pod)
     = match overflow_mark p pod with
       | Some uid =>
           if decide (is_Some (overflowingControllers p !! uid))
           then OverflowingControllerCount p
           else S (OverflowingControllerCount p)
       | None => OverflowingControllerCount p
       end)
  ∧ (∀ pods,
       OverflowingControllerCount (run NewSimilarPodsScheduling pods).1
       = size (list_to_set (run NewSimilarPodsScheduling pods).2 : gset string)).
Proof.
  split.
  - intros p pod. unfold OverflowingControllerCount.
    rewrite overflow_mark_spec.
    destruct (overflow_mark p pod) as [uid|]; [|done].
    case_decide as Hm.
    + destruct Hm as [b Hb]. rewrite <- !size_dom, dom_insert_L.
      f_equal. apply elem_of_dom_2 in Hb. set_solver.
    + apply map_size_insert_None. by apply eq_None_not_Some.
  - intros pods. unfold OverflowingControllerCount.
    rewrite <- size_dom, run_marks. simpl.
    rewrite dom_empty_L. f_equal. set_solver.
Qed.

End CacheProperties.

(** ** The cache on the sample pods, with the modelled helpers *)

Lemma cache_of_reachable pods :
  reachable drain.ControllerRef pod_utils.IsDaemonSetPod (Samples.cache_of pods).
Proof. apply run_reachable. constructor. Qed.

Lemma full_cache_items :
  index_items Samples.full_cache "uid-web" = replicate 10 (signature_of Samples.web1).
Proof. by vm_compute. Qed.

Lemma overflowing_cache_items :
  index_items Samples.overflowing_cache "uid-web"
  = replicate 10 (signature_of Samples.web1).
Proof. by vm_compute. Qed.


(** The claim as it stands fails twice.  A replica that carries the
    daemon-set annotation, marked unschedulable when its replica set has ten
    stored signatures, leaves the replica set unmarked.  And for the
    overflowing replica set, the lookup of a replica that was never stored,
    to which no stored signature is equivalent, but which shares the
    container arrays of the stored one, returns true. *)
Lemma C3_counterexample :
  (reachable drain.ControllerRef pod_utils.IsDaemonSetPod Samples.full_cache
   ∧ drain.ControllerRef Samples.web_ds = Some Samples.web_rs
   ∧ (maxPodsPerOwnerRef
        ≤ length (index_items Samples.full_cache (OwnerReference.UID Samples.web_rs)))%nat
   ∧ overflowingControllers
       (SetUnschedulable drain.ControllerRef pod_utils.IsDaemonSetPod
          Samples.full_cache Samples.web_ds)
       !! OwnerReference.UID Samples.web_rs ≠ Some true)
  ∧ (reachable drain.ControllerRef pod_utils.IsDaemonSetPod Samples.overflowing_cache
     ∧ drain.ControllerRef Samples.web_alias = Some Samples.web_rs
     ∧ overflowingControllers Samples.overflowing_cache
         !! OwnerReference.UID Samples.web_rs = Some true
     ∧ (∀ info, info ∈ index_items Samples.overflowing_cache
                         (OwnerReference.UID Samples.web_rs) →
                ¬ equivalent Samples.store info Samples.web_alias)
     ∧ (IsSimilarUnschedulable drain.ControllerRef
          Samples.overflowing_cache Samples.web_alias Samples.store).1 = true).
Proof.
  split.
  - split; [apply cache_of_reachable|]. split; [reflexivity|]. split.
    + change (OwnerReference.UID Samples.web_rs) with "uid-web".
      rewrite full_cache_items, length_replicate. unfold maxPodsPerOwnerRef. lia.
    + by vm_compute.
  - split; [apply cache_of_reachable|]. split; [reflexivity|].
    split; [by vm_compute|]. split; [|by vm_compute].
    change (OwnerReference.UID Samples.web_rs) with "uid-web".
    rewrite overflowing_cache_items.
    intros i [-> _]%elem_of_replicate [_ He]. vm_compute in He. discriminate.
Qed.

Lemma C3_witness :
  (overflowingControllers
      (SetUnschedulable drain.ControllerRef pod_utils.IsDaemonSetPod
         Samples.full_cache Samples.web2) !! "uid-web" = Some true
   ∧ items (SetUnschedulable drain.ControllerRef pod_utils.IsDaemonSetPod
              Samples.full_cache Samples.web2) = items Samples.full_cache)
  ∧ (IsSimilarUnschedulable drain.ControllerRef
       Samples.overflowing_cache Samples.canary Samples.store).1 = false.
Proof.
  destruct (C3_overflow_and_no_false_positive drain.ControllerRef pod_utils.IsDaemonSetPod)
    as (H1 & H3).
  split.
  - apply (H1 Samples.full_cache Samples.web2 Samples.web_rs).
    + reflexivity.
    + reflexivity.
    + change (OwnerReference.UID Samples.web_rs) with "uid-web".
      rewrite full_cache_items, length_replicate. unfold maxPodsPerOwnerRef. lia.
  - apply (H3 Samples.overflowing_cache Samples.canary Samples.web_rs Samples.store).
    + reflexivity.
    + by vm_compute.
    + change (OwnerReference.UID Samples.web_rs) with "uid-web".
      rewrite overflowing_cache_items. split.
      * intros i [-> _]%elem_of_replicate. by apply samples_separate.
      * intros i j [-> _]%elem_of_replicate [-> _]%elem_of_replicate.
        apply coherent_refl.
    + change (OwnerReference.UID Samples.web_rs) with "uid-web".
      rewrite overflowing_cache_items.
      intros i [-> _]%elem_of_replicate [_ He]. vm_compute in He. discriminate.
Defined.

Lemma C4_counterexample :
  pod_utils.IsDaemonSetPod Samples.web_ds = true
  ∧ reachable drain.ControllerRef pod_utils.IsDaemonSetPod (Samples.cache_of [Samples.web1])
  ∧ (IsSimilarUnschedulable drain.ControllerRef
       (Samples.cache_of [Samples.web1]) Samples.web_ds Samples.store).1 ≠ false.
Proof.
  split; [reflexivity|]. split; [apply cache_of_reachable|]. by vm_compute.
Qed.

Lemma C4_witness :
  SetUnschedulable drain.ControllerRef pod_utils.IsDaemonSetPod
    Samples.full_cache Samples.web_ds = Samples.full_cache
  ∧ IsSimilarUnschedulable drain.ControllerRef
      Samples.full_cache Samples.orphan Samples.store = (false, Samples.store)
  ∧ IsSimilarUnschedulable drain.ControllerRef
      (Samples.cache_of [Samples.web1; Samples.fluentd]) Samples.fluentd Samples.store
    = (false, Samples.store).
Proof.
  destruct (C4_skipped_pods drain.ControllerRef pod_utils.IsDaemonSetPod)
    as (H1 & H2 & H3).
  split; [|split].
  - apply H1. right. reflexivity.
  - apply H2. reflexivity.
  - apply (H3 [Samples.web1; Samples.fluentd] Samples.fluentd Samples.fluentd_ds).
    + reflexivity.
    + reflexivity.
    + intros q refq Hq Hr Hu.
      apply elem_of_cons in Hq as [->|Hq].
      * vm_compute in Hr. injection Hr as <-. vm_compute in Hu. discriminate.
      * apply list_elem_of_singleton in Hq. subst q. reflexivity.
Defined.

Lemma C7_counterexample :
  reachable drain.ControllerRef pod_utils.IsDaemonSetPod
    (Samples.cache_of [Samples.web1; Samples.web1])
  ∧ index_items (Samples.cache_of [Samples.web1; Samples.web1]) "uid-web"
    = [signature_of Samples.web1; signature_of Samples.web1]
  ∧ ¬ NoDup (index_items (Samples.cache_of [Samples.web1; Samples.web1]) "uid-web")
  ∧ (Match (signature_of Samples.web1) Samples.web1 Samples.store).1 = true.
Proof.
  split; [apply cache_of_reachable|].
  assert (index_items (Samples.cache_of [Samples.web1; Samples.web1]) "uid-web"
          = [signature_of Samples.web1; signature_of Samples.web1]) as E
    by (by vm_compute).
  split; [exact E|]. split; [|apply Match_self].
  rewrite E. intros Hnd. apply NoDup_cons in Hnd as [Hnin _].
  apply Hnin, list_elem_of_here.
Qed.

Lemma C7_witness :
  (length (index_items Samples.overflowing_cache "uid-web") ≤ 10)%nat.
Proof.
  apply (C7_stored_lists_bounded drain.ControllerRef pod_utils.IsDaemonSetPod).
  apply cache_of_reachable.
Defined.

Lemma C9_witness :
  (IsSimilarUnschedulable drain.ControllerRef
     (SetUnschedulable drain.ControllerRef pod_utils.IsDaemonSetPod
        (Samples.cache_of [Samples.canary]) Samples.web1)
     Samples.web1 Samples.store).1 = true.
Proof.
  apply (C9_store_then_lookup drain.ControllerRef pod_utils.IsDaemonSetPod
           (Samples.cache_of [Samples.canary]) Samples.web1 Samples.web_rs).
  - reflexivity.
  - reflexivity.
  - vm_compute. lia.
Defined.

(** ** Sanitisation and the original record *)

(** C8.  [sanitizePodSpec] works on a copy of the struct only: the backing
    arrays of [Containers] and [InitContainers] are those of the original,
    and the element loops rewrite them.  After the call the original
    specification holds the cleaned containers; for [web1] the mount of the
    token volume is gone from its container, and [Match] leaves it so. *)
Theorem C8_sanitize_writes_through :
  (∀ s h,
     load (sanitizePodSpec s h).2 (PodSpec.Containers s)
       = strip_of s <$> load h (PodSpec.Containers s)
     ∧ load (sanitizePodSpec s h).2 (PodSpec.InitContainers s)
       = strip_of s <$> load h (PodSpec.InitContainers s))
  ∧ Container.VolumeMounts <$> SpecValue.Containers (deref Samples.store (Pod.Spec Samples.web1))
    = [[Samples.mount "kube-api-access-aaaaa" "/var/run/secrets";
        Samples.mount "data" "/data"]]
  ∧ Container.VolumeMounts <$>
      SpecValue.Containers
        (deref (sanitizePodSpec (Pod.Spec Samples.web1) Samples.store).2
               (Pod.Spec Samples.web1))
    = [[Samples.mount "data" "/data"]]
  ∧ deref (sanitizePodSpec (Pod.Spec Samples.web1) Samples.store).2 (Pod.Spec Samples.web1)
    ≠ deref Samples.store (Pod.Spec Samples.web1)
  ∧ deref (Match (signature_of Samples.web2) Samples.web1 Samples.store).2
          (Pod.Spec Samples.web1)
    ≠ deref Samples.store (Pod.Spec Samples.web1).
Proof.
  split.
  { intros s h. split; rewrite load_sanitize; by rewrite decide_True by auto. }
  split; [by vm_compute|]. split; [by vm_compute|].
  split; by vm_compute.
Qed.

(** ** Snapshot initialisation *)

Section InitializeProperties.
Import clustersnapshot.
Context {S : Type} {snap : ClusterSnapshot S}.

Lemma binding_target_explicit pod :
  PodSpec.NodeName (Pod.Spec pod) ≠ "" →
  binding_target pod = Some (PodSpec.NodeName (Pod.Spec pod)).
Proof. intros H. unfold binding_target. by rewrite decide_True. Qed.

Lemma binding_target_nominated pod :
  PodSpec.NodeName (Pod.Spec pod) = "" → Pod.NominatedNodeName pod ≠ "" →
  binding_target pod = Some (Pod.NominatedNodeName pod).
Proof.
  intros H1 H2. unfold binding_target.
  rewrite decide_False by (by intros H; apply H).
  by rewrite decide_True.
Qed.

Lemma binding_target_none pod :
  binding_target pod = None
  ↔ PodSpec.NodeName (Pod.Spec pod) = "" ∧ Pod.NominatedNodeName pod = "".
Proof.
  unfold binding_target.
  repeat case_decide; split; try done; intros [H1 H2]; congruence.
Qed.

Lemma eqb_empty (s : string) : String.eqb s "" = bool_decide (s = "").
Proof.
  destruct (String.eqb_spec s "") as [->|Hne].
  - by rewrite bool_decide_eq_true_2.
  - by rewrite bool_decide_eq_false_2.
Qed.

(** One turn of the loop over the pods. *)
Lemma add_pods_bound pod rest (s : S) err n :
  binding_target pod = Some n →
  add_pods (pod :: rest) s err = add_pods rest (AddPod pod n s).1 (AddPod pod n s).2.
Proof.
  unfold binding_target. simpl. rewrite !eqb_empty.
  case_decide as H1.
  - intros [= <-]. rewrite bool_decide_eq_false_2 by done. simpl.
    by destruct (AddPod pod _ s).
  - rewrite bool_decide_eq_true_2 by done. simpl.
    case_decide as H2; [|done].
    intros [= <-]. rewrite bool_decide_eq_false_2 by done. simpl.
    by destruct (AddPod pod _ s).
Qed.

Lemma add_pods_unbound pod rest (s : S) err :
  binding_target pod = None → add_pods (pod :: rest) s err = Panicked err s.
Proof.
  intros [H1 H2]%binding_target_none. simpl. rewrite !eqb_empty.
  by rewrite !bool_decide_eq_true_2.
Qed.

(** The loop panics as soon as a pod has no target, whatever the state and
    the pending error. *)
Lemma add_pods_panics pods : ∀ (s : S) err pod,
  pod ∈ pods → binding_target pod = None →
  panicked (add_pods pods s err) = true.
Proof.
  induction pods as [|q rest IH]; intros s err pod Hin Hnone.
  - by apply elem_of_nil in Hin.
  - destruct (binding_target q) as [n|] eqn:Hq.
    + rewrite (add_pods_bound q rest s err n Hq).
      apply elem_of_cons in Hin as [->|Hin]; [congruence|].
      by apply (IH _ _ pod).
    + by rewrite add_pods_unbound.
Qed.

(** The loop returns when every pod has a target: the errors that [AddPod]
    reports do not stop it. *)
Lemma add_pods_returns pods : ∀ (s : S) err,
  Forall (λ pod, binding_target pod ≠ None) pods →
  panicked (add_pods pods s err) = false.
Proof.
  induction pods as [|q rest IH]; intros s err Hall; [done|].
  apply Forall_cons in Hall as [Hq Hrest].
  destruct (binding_target q) as [n|] eqn:E; [|done].
  rewrite (add_pods_bound q rest s err n E). by apply IH.
Qed.

(** C5.  A workload with neither an explicit node assignment nor a nominated
    node makes [InitializeClusterSnapshotOrDie] panic, for every snapshot
    implementation and whatever the other nodes and workloads are. *)
Theorem C5_unbound_workload_panics (snapshot : S) nodes pods pod :
  pod ∈ pods →
  PodSpec.NodeName (Pod.Spec pod) = "" → Pod.NominatedNodeName pod = "" →
  ∃ v s, InitializeClusterSnapshotOrDie snapshot nodes pods = Panicked v s.
Proof.
  intros Hin H1 H2. unfold InitializeClusterSnapshotOrDie.
  destruct (add_nodes nodes (Clear snapshot, None)) as [s1 err1].
  assert (panicked (add_pods pods s1 err1) = true) as Hp.
  { apply (add_pods_panics pods s1 err1 pod Hin). by apply binding_target_none. }
  destruct (add_pods pods s1 err1) as [s|v s]; [discriminate|].
  by exists v, s.
Qed.

End InitializeProperties.

Section RecorderProperties.
Import clustersnapshot.
Variable verdict : list call → call → option error.

Lemma recorder_add_nodes nodes : ∀ log err,
  (add_nodes (snap := Recorder verdict) nodes (log, err)).1
  = log ++ (CallAddNode <$> nodes).
Proof.
  unfold add_nodes.
  induction nodes as [|node rest IH]; intros log err; simpl.
  - by rewrite app_nil_r.
  - rewrite IH. by rewrite <- app_assoc.
Qed.

Lemma recorder_add_pods pods : ∀ log err,
  final_state (add_pods (snap := Recorder verdict) pods log err)
  = log ++ binding_calls pods.
Proof.
  induction pods as [|pod rest IH]; intros log err.
  - simpl. by rewrite app_nil_r.
  - simpl binding_calls. destruct (binding_target pod) as [n|] eqn:E.
    + rewrite (add_pods_bound pod rest log err n E). simpl.
      rewrite IH. by rewrite <- app_assoc.
    + rewrite (add_pods_unbound pod rest log err E). simpl.
      by rewrite app_nil_r.
Qed.

(** The calls [InitializeClusterSnapshotOrDie] makes, in order, whatever
    errors they report. *)
Lemma recorder_trace log nodes pods :
  final_state (InitializeClusterSnapshotOrDie (snap := Recorder verdict) log nodes pods)
  = log ++ [CallClear] ++ (CallAddNode <$> nodes) ++ binding_calls pods.
Proof.
  unfold InitializeClusterSnapshotOrDie.
  pose proof (recorder_add_nodes nodes (Clear (ClusterSnapshot := Recorder verdict) log) None) as Hn.
  destruct (add_nodes nodes _) as [s1 err1]. simpl in Hn. subst s1.
  rewrite recorder_add_pods. by rewrite <- !app_assoc.
Qed.

Lemma binding_calls_app pre pods :
  Forall (λ q, binding_target q ≠ None) pre →
  binding_calls (pre ++ pods) = binding_calls pre ++ binding_calls pods
  ∧ length (binding_calls pre) = length pre.
Proof.
  induction 1 as [|q pre Hq Hpre [IH1 IH2]]; [done|]. simpl.
  destruct (binding_target q) as [n|]; [|done]. simpl.
  by rewrite IH1, IH2.
Qed.

End RecorderProperties.

(** C6.  A running workload that the loop reaches is bound by one call of
    [AddPod]: to its explicit node assignment if that is non-empty, and
    otherwise to its nominated node if that is non-empty.  This holds for
    every snapshot implementation (first part); on the recording snapshot,
    the call made for the workload is that one, whatever was reported
    before (second part), and the run as a whole is [Clear], the nodes, and
    the bindings in order (third part). *)
Theorem C6_explicit_assignment_first :
  (∀ (S : Type) (snap : clustersnapshot.ClusterSnapshot S) pod rest (s : S) err,
     (PodSpec.NodeName (Pod.Spec pod) ≠ "" →
        clustersnapshot.add_pods (pod :: rest) s err
        = clustersnapshot.add_pods rest
            (clustersnapshot.AddPod pod (PodSpec.NodeName (Pod.Spec pod)) s).1
            (clustersnapshot.AddPod pod (PodSpec.NodeName (Pod.Spec pod)) s).2)
     ∧ (PodSpec.NodeName (Pod.Spec pod) = "" → Pod.NominatedNodeName pod ≠ "" →
        clustersnapshot.add_pods (pod :: rest) s err
        = clustersnapshot.add_pods rest
            (clustersnapshot.AddPod pod (Pod.NominatedNodeName pod) s).1
            (clustersnapshot.AddPod pod (Pod.NominatedNodeName pod) s).2))
  ∧ (∀ verdict nodes pre pod post,
       Forall (λ q, PodSpec.NodeName (Pod.Spec q) ≠ "" ∨ Pod.NominatedNodeName q ≠ "") pre →
       (PodSpec.NodeName (Pod.Spec pod) ≠ "" →
          clustersnapshot.final_state
            (clustersnapshot.InitializeClusterSnapshotOrDie
               (snap := clustersnapshot.Recorder verdict) [] nodes (pre ++ pod :: post))
          !! (1 + length nodes + length pre)%nat
          = Some (clustersnapshot.CallAddPod pod (PodSpec.NodeName (Pod.Spec pod))))
       ∧ (PodSpec.NodeName (Pod.Spec pod) = "" → Pod.NominatedNodeName pod ≠ "" →
          clustersnapshot.final_state
            (clustersnapshot.InitializeClusterSnapshotOrDie
               (snap := clustersnapshot.Recorder verdict) [] nodes (pre ++ pod :: post))
          !! (1 + length nodes + length pre)%nat
          = Some (clustersnapshot.CallAddPod pod (Pod.NominatedNodeName pod))))
  ∧ (∀ verdict nodes pods,
       clustersnapshot.final_state
         (clustersnapshot.InitializeClusterSnapshotOrDie
            (snap := clustersnapshot.Recorder verdict) [] nodes pods)
       = [clustersnapshot.CallClear] ++ (clustersnapshot.CallAddNode <$> nodes)
         ++ clustersnapshot.binding_calls pods).
Proof.
  split; [|split].
  - intros S snap pod rest s err. split.
    + intros H. by apply add_pods_bound, binding_target_explicit.
    + intros H1 H2. by apply add_pods_bound, binding_target_nominated.
  - intros verdict nodes pre pod post Hpre.
    assert (Forall (λ q, clustersnapshot.binding_target q ≠ None) pre) as Hpre'.
    { eapply Forall_impl; [exact Hpre|]. intros q Hq Hnone.
      apply binding_target_none in Hnone as [H1 H2]. by destruct Hq. }
    destruct (binding_calls_app pre (pod :: post) Hpre') as [Happ Hlen].
    assert (∀ n, clustersnapshot.binding_target pod = Some n →
      clustersnapshot.final_state
        (clustersnapshot.InitializeClusterSnapshotOrDie
           (snap := clustersnapshot.Recorder verdict) [] nodes (pre ++ pod :: post))
      !! (1 + length nodes + length pre)%nat
      = Some (clustersnapshot.CallAddPod pod n)) as Hcall.
    { intros n Hn. rewrite recorder_trace, Happ. simpl. rewrite Hn.
      rewrite lookup_app_r by (rewrite length_fmap; lia).
      rewrite length_fmap.
      rewrite lookup_app_r by lia.
      replace (length nodes + length pre - length nodes
               - length (clustersnapshot.binding_calls pre))%nat with 0%nat by lia.
      done. }
    split.
    + intros H. by apply Hcall, binding_target_explicit.
    + intros H1 H2. by apply Hcall, binding_target_nominated.
  - intros verdict nodes pods. by rewrite recorder_trace.
Qed.

(** ** Initialisation on the sample cluster *)

Lemma C5_witness :
  ∃ v s,
    clustersnapshot.InitializeClusterSnapshotOrDie
      (snap := clustersnapshot.BasicClusterSnapshot) ∅
      [Samples.node "n1"; Samples.node "n2"]
      [Samples.assigned; Samples.unbound; Samples.nominated]
    = clustersnapshot.Panicked v s.
Proof.
  apply (C5_unbound_workload_panics (snap := clustersnapshot.BasicClusterSnapshot)
           ∅ [Samples.node "n1"; Samples.node "n2"]
           [Samples.assigned; Samples.unbound; Samples.nominated] Samples.unbound).
  - apply list_elem_of_further, list_elem_of_here.
  - reflexivity.
  - reflexivity.
Defined.

Lemma C6_witness :
  clustersnapshot.final_state
    (clustersnapshot.InitializeClusterSnapshotOrDie
       (snap := clustersnapshot.Recorder clustersnapshot.always_fails) []
       [Samples.node "n1"; Samples.node "n2"]
       ([Samples.assigned] ++ Samples.both :: [Samples.nominated]))
  !! 4%nat = Some (clustersnapshot.CallAddPod Samples.both "n1")
  ∧ clustersnapshot.final_state
      (clustersnapshot.InitializeClusterSnapshotOrDie
         (snap := clustersnapshot.Recorder clustersnapshot.always_fails) []
         [Samples.node "n1"; Samples.node "n2"]
         ([Samples.assigned; Samples.both] ++ Samples.nominated :: []))
    !! 5%nat = Some (clustersnapshot.CallAddPod Samples.nominated "n2").
Proof.
  destruct C6_explicit_assignment_first as (_ & H & _).
  split.
  - apply (H clustersnapshot.always_fails [Samples.node "n1"; Samples.node "n2"]
             [Samples.assigned] Samples.both [Samples.nominated]).
    + repeat constructor. by vm_compute.
    + by vm_compute.
  - apply (H clustersnapshot.always_fails [Samples.node "n1"; Samples.node "n2"]
             [Samples.assigned; Samples.both] Samples.nominated []).
    + repeat constructor; by vm_compute.
    + reflexivity.
    + by vm_compute.
Defined.

(** C1.  On a snapshot input with a node registered twice and a workload
    bound to a node that does not exist, [AddNode] and [AddPod] report the
    errors, and [InitializeClusterSnapshotOrDie] goes on: the node and the
    workload that come after the failed calls are added, and the call
    returns.  On the recording snapshot, where every call fails, every call
    is made all the same. *)
Theorem C1_errors_do_not_abort :
  (clustersnapshot.AddNode (ClusterSnapshot := clustersnapshot.BasicClusterSnapshot)
     (Samples.node "n1") {[ "n1" := (Samples.node "n1", []) ]}).2
  = Some (clustersnapshot.DuplicateNode "n1")
  ∧ (clustersnapshot.AddPod (ClusterSnapshot := clustersnapshot.BasicClusterSnapshot)
       Samples.ghost "n9" {[ "n1" := (Samples.node "n1", []) ]}).2
    = Some (clustersnapshot.UnknownNode "n9")
  ∧ clustersnapshot.InitializeClusterSnapshotOrDie
      (snap := clustersnapshot.BasicClusterSnapshot) ∅
      [Samples.node "n1"; Samples.node "n1"; Samples.node "n2"]
      [Samples.ghost; Samples.nominated]
    = clustersnapshot.Returned
        {[ "n1" := (Samples.node "n1", []);
           "n2" := (Samples.node "n2", [Samples.nominated]) ]}
  ∧ clustersnapshot.InitializeClusterSnapshotOrDie
      (snap := clustersnapshot.Recorder clustersnapshot.always_fails) []
      [Samples.node "n1"; Samples.node "n1"; Samples.node "n2"]
      [Samples.ghost; Samples.nominated]
    = clustersnapshot.Returned
        [ clustersnapshot.CallClear;
          clustersnapshot.CallAddNode (Samples.node "n1");
          clustersnapshot.CallAddNode (Samples.node "n1");
          clustersnapshot.CallAddNode (Samples.node "n2");
          clustersnapshot.CallAddPod Samples.ghost "n9";
          clustersnapshot.CallAddPod Samples.nominated "n2" ].
Proof. repeat split; by vm_compute. Qed.

(** * Further properties *)

(** ** Sanitisation: what it leaves, what it keeps *)

Lemma lookup_strip_at f s (h : heap) a :
  strip_at f s h !! a
  = if decide (s = Some a) then (fmap f) <$> (h !! a) else h !! a.
Proof.
  case_decide as Hd.
  - subst s. simpl. destruct (h !! a) as [arr|] eqn:E; simpl.
    + by rewrite lookup_insert_eq.
    + by rewrite E.
  - destruct s as [b|]; simpl; [|done].
    destruct (h !! b) as [arr|] eqn:E; [|done].
    rewrite lookup_insert_ne; [done|congruence].
Qed.

Lemma strip_at_clean f s (h : heap) :
  f <$> load h s = load h s → strip_at f s h = h.
Proof.
  intros Hc. destruct s as [a|]; simpl in *; [|done].
  destruct (h !! a) as [arr|] eqn:E; simpl in *; [|done].
  rewrite Hc. by apply insert_id.
Qed.

Lemma strip_at_comm f g s t (h : heap) :
  (∀ l : list Container.t, f <$> (g <$> l) = g <$> (f <$> l)) →
  strip_at f s (strip_at g t h) = strip_at g t (strip_at f s h).
Proof.
  intros Hfg. apply map_eq. intros a. rewrite !lookup_strip_at.
  repeat case_decide; try done.
  destruct (h !! a) as [arr|]; simpl; [|done]. by rewrite Hfg.
Qed.

Lemma plain_mounts_nil ms : plain_mounts [] ms = ms.
Proof.
  unfold plain_mounts. induction ms as [|m ms IH]; [done|].
  rewrite filter_cons_True by apply not_elem_of_nil. by rewrite IH.
Qed.

Lemma strip_container_nil (l : list Container.t) : strip_container [] <$> l = l.
Proof.
  rewrite <- (list_fmap_id l) at 2. apply list_fmap_ext. intros _ c _.
  unfold strip_container. rewrite plain_mounts_nil. by destruct c.
Qed.

Lemma plain_volumes_idem vs : plain_volumes (plain_volumes vs) = plain_volumes vs.
Proof.
  unfold plain_volumes. rewrite list_filter_filter.
  apply list_filter_iff. intros v. tauto.
Qed.

Lemma projected_names_plain vs : projected_names (plain_volumes vs) = [].
Proof.
  unfold projected_names, plain_volumes. rewrite list_filter_filter.
  induction vs as [|v vs IH]; [done|].
  rewrite filter_cons_False; [done|].
  intros [H1 H2]. congruence.
Qed.

Lemma plain_volumes_all vs :
  Forall (λ v, Volume.Projected v = None) vs →
  plain_volumes vs = vs ∧ projected_names vs = [].
Proof.
  unfold plain_volumes, projected_names, is_projected.
  induction 1 as [|v vs Hv _ [IH1 IH2]]; [done|].
  rewrite filter_cons_True by (rewrite Hv; by apply bool_decide_eq_false_2; auto).
  rewrite filter_cons_False.
  - by rewrite IH1.
  - rewrite Hv. rewrite bool_decide_eq_true. auto.
Qed.

Lemma is_projected_false v : is_projected v = false ↔ Volume.Projected v = None.
Proof.
  unfold is_projected. rewrite bool_decide_eq_false.
  destruct (Volume.Projected v); split; try done.
  - intros H. by destruct H.
  - intros _ H. by apply H.
Qed.

(** X1.  What [sanitizePodSpec] returns: the copy keeps exactly the volumes
    with no projected source, in their order, and has no hostname; and in the
    store the call leaves, no container or init container of the copy mounts
    a volume whose name is that of a projected volume of the argument. *)
Theorem sanitizePodSpec_result s h :
  PodSpec.Volumes (sanitizePodSpec s h).1
    = filter (λ v, Volume.Projected v = None) (PodSpec.Volumes s)
  ∧ PodSpec.Hostname (sanitizePodSpec s h).1 = ""
  ∧ (∀ x c m v,
       x = PodSpec.Containers (sanitizePodSpec s h).1
         ∨ x = PodSpec.InitContainers (sanitizePodSpec s h).1 →
       c ∈ load (sanitizePodSpec s h).2 x → m ∈ Container.VolumeMounts c →
       v ∈ PodSpec.Volumes s → Volume.Projected v ≠ None →
       VolumeMount.Name m ≠ Volume.Name v).
Proof.
  split; [|split].
  - rewrite sanitize_copy. simpl. unfold plain_volumes.
    apply list_filter_iff. intros v. apply is_projected_false.
  - by rewrite sanitize_copy.
  - intros x c m v Hx Hc Hm Hv Hp Heq.
    rewrite sanitize_copy in Hx. simpl in Hx.
    rewrite load_sanitize in Hc. rewrite decide_True in Hc by done.
    apply list_elem_of_fmap in Hc as (d & -> & Hd).
    unfold strip_of, strip_container, plain_mounts in Hm. simpl in Hm.
    apply list_elem_of_filter in Hm as [Hnot _]. apply Hnot.
    rewrite Heq. unfold names_of, projected_names.
    apply list_elem_of_fmap. exists v. split; [done|].
    apply list_elem_of_filter. split; [|done].
    unfold is_projected. by apply bool_decide_eq_true.
Qed.

Lemma strip_of_copy s h (l : list Container.t) :
  strip_of (sanitizePodSpec s h).1 <$> l = l.
Proof.
  rewrite sanitize_copy. unfold strip_of, names_of. simpl.
  rewrite projected_names_plain. apply strip_container_nil.
Qed.

Lemma copy_fixed s h :
  dropHostname
    (set_Volumes (sanitizePodSpec s h).1
       (plain_volumes (PodSpec.Volumes (sanitizePodSpec s h).1)))
  = (sanitizePodSpec s h).1.
Proof. rewrite sanitize_copy. simpl. by rewrite plain_volumes_idem. Qed.

(** X2.  Sanitising is idempotent, on the copy and on the store: sanitising
    the returned copy again, or the argument again, gives the same copy and
    leaves the store as the first call left it. *)
Theorem sanitizePodSpec_idempotent s h :
  sanitizePodSpec (sanitizePodSpec s h).1 (sanitizePodSpec s h).2 = sanitizePodSpec s h
  ∧ sanitizePodSpec s (sanitizePodSpec s h).2 = sanitizePodSpec s h.
Proof.
  split.
  - rewrite (sanitizePodSpec_spec (sanitizePodSpec s h).1).
    rewrite copy_fixed.
    rewrite !strip_at_clean by apply strip_of_copy.
    by destruct (sanitizePodSpec s h).
  - rewrite (sanitizePodSpec_spec s (sanitizePodSpec s h).2).
    rewrite (strip_at_clean _ (PodSpec.Containers s))
      by (by apply clean_after_sanitize; left).
    rewrite (strip_at_clean _ (PodSpec.InitContainers s))
      by (by apply clean_after_sanitize; right).
    rewrite <- sanitize_copy with (h := h).
    by destruct (sanitizePodSpec s h).
Qed.

(** X3.  For a specification with no projected volume the call only clears
    the hostname of the copy: the store is left exactly as it was. *)
Theorem sanitizePodSpec_no_projected s h :
  Forall (λ v, Volume.Projected v = None) (PodSpec.Volumes s) →
  sanitizePodSpec s h = (dropHostname s, h).
Proof.
  intros Hall. destruct (plain_volumes_all _ Hall) as [Hv Hn].
  rewrite sanitizePodSpec_spec. unfold strip_of, names_of. rewrite Hn, Hv.
  rewrite !strip_at_clean by apply strip_container_nil.
  by destruct s.
Qed.

Lemma sanitizePodSpec_no_projected_witness :
  sanitizePodSpec (set_Volumes (Pod.Spec Samples.web1) [Samples.data_volume]) Samples.store
  = (dropHostname (set_Volumes (Pod.Spec Samples.web1) [Samples.data_volume]),
     Samples.store).
Proof.
  apply sanitizePodSpec_no_projected. simpl.
  apply Forall_cons_2; [reflexivity|apply Forall_nil_2].
Defined.

(** X4.  Sanitising keeps the containers of every slice: the same number,
    names and images, in the same order; the mounts of each container after
    the call are a sublist of its mounts before. *)
Theorem sanitizePodSpec_keeps_containers s h x :
  Container.Name <$> load (sanitizePodSpec s h).2 x = Container.Name <$> load h x
  ∧ Container.Image <$> load (sanitizePodSpec s h).2 x = Container.Image <$> load h x
  ∧ Forall2 (λ c' c, Container.VolumeMounts c' `sublist_of` Container.VolumeMounts c)
            (load (sanitizePodSpec s h).2 x) (load h x).
Proof.
  rewrite load_sanitize. case_decide as Hd.
  - rewrite <- !list_fmap_compose. split; [done|]. split; [done|].
    apply Forall2_fmap_l. apply Forall_Forall2_diag, Forall_forall.
    intros c _. simpl. unfold plain_mounts. apply sublist_filter.
  - split; [done|]. split; [done|].
    by apply Forall_Forall2_diag, Forall_forall.
Qed.

Lemma sanitize_store_lookup s (h : heap) a :
  ¬ owns s a → (sanitizePodSpec s h).2 !! a = h !! a.
Proof.
  intros Hno. rewrite sanitizePodSpec_spec. simpl. rewrite !lookup_strip_at.
  unfold owns in Hno. repeat case_decide; try done; tauto.
Qed.

Lemma sanitize_store_dom s (h : heap) : dom (sanitizePodSpec s h).2 = dom h.
Proof.
  rewrite sanitizePodSpec_spec. simpl.
  apply set_eq. intros a. rewrite !elem_of_dom, !lookup_strip_at.
  repeat case_decide; rewrite ?fmap_is_Some; done.
Qed.

(** X5.  Sanitising writes to the two arrays of its argument and to nothing
    else: every other array of the store is as before, and no array is
    allocated or freed. *)
Theorem sanitizePodSpec_frame s (h : heap) :
  (∀ a, PodSpec.Containers s ≠ Some a → PodSpec.InitContainers s ≠ Some a →
        (sanitizePodSpec s h).2 !! a = h !! a)
  ∧ dom (sanitizePodSpec s h).2 = dom h.
Proof.
  split; [|apply sanitize_store_dom].
  intros a HC HI. apply sanitize_store_lookup. by intros [H|H].
Qed.

Lemma sanitizePodSpec_frame_witness :
  (sanitizePodSpec (Pod.Spec Samples.web1) Samples.store).2 !! 3%positive
  = Samples.store !! 3%positive.
Proof.
  apply (proj1 (sanitizePodSpec_frame (Pod.Spec Samples.web1) Samples.store));
    simpl; discriminate.
Defined.

(** ** Comparison: order, repetition, transitivity *)

Lemma sanitize_store_comm p1 p2 h :
  (sanitizePodSpec p2 (sanitizePodSpec p1 h).2).2
  = (sanitizePodSpec p1 (sanitizePodSpec p2 h).2).2.
Proof.
  rewrite !sanitizePodSpec_spec. simpl.
  assert (∀ l : list Container.t,
    strip_of p2 <$> (strip_of p1 <$> l) = strip_of p1 <$> (strip_of p2 <$> l)) as H21
    by (intros l; apply strip_comm).
  assert (∀ l : list Container.t,
    strip_of p1 <$> (strip_of p2 <$> l) = strip_of p2 <$> (strip_of p1 <$> l)) as H12
    by (intros l; apply strip_comm).
  rewrite (strip_at_comm _ _ (PodSpec.Containers p2) (PodSpec.InitContainers p1)) by done.
  rewrite (strip_at_comm _ _ (PodSpec.Containers p2) (PodSpec.Containers p1)) by done.
  rewrite (strip_at_comm _ _ (PodSpec.InitContainers p2) (PodSpec.InitContainers p1)) by done.
  by rewrite (strip_at_comm _ _ (PodSpec.InitContainers p2) (PodSpec.Containers p1)) by done.
Qed.

Lemma Semantic_DeepEqual_value_comm a b :
  Semantic_DeepEqual_value a b = Semantic_DeepEqual_value b a.
Proof.
  destruct (Semantic_DeepEqual_value a b) eqn:E1;
    destruct (Semantic_DeepEqual_value b a) eqn:E2; try done.
  - apply Semantic_DeepEqual_value_sym in E1. congruence.
  - apply Semantic_DeepEqual_value_sym in E2. congruence.
Qed.

(** X6.  [PodSpecSemanticallyEqual] does not depend on the order of its
    arguments: the verdict is the same and so is the store it leaves. *)
Theorem PodSpecSemanticallyEqual_symmetric p1 p2 h :
  PodSpecSemanticallyEqual p1 p2 h = PodSpecSemanticallyEqual p2 p1 h.
Proof.
  destruct (PodSpecSemanticallyEqual_post p1 p2 h) as [Hv Hs].
  destruct (PodSpecSemanticallyEqual_post p2 p1 h) as [Hv' Hs'].
  cbv zeta in *.
  rewrite (surjective_pairing (PodSpecSemanticallyEqual p1 p2 h)).
  rewrite (surjective_pairing (PodSpecSemanticallyEqual p2 p1 h)).
  rewrite Hv, Hv', Hs, Hs'. rewrite (sanitize_store_comm p1 p2 h).
  by rewrite Semantic_DeepEqual_value_comm.
Qed.

Lemma sanitize_twice_store p1 p2 h :
  let h2 := (sanitizePodSpec p2 (sanitizePodSpec p1 h).2).2 in
  (sanitizePodSpec p2 (sanitizePodSpec p1 h2).2).2 = h2.
Proof.
  intros h2.
  assert ((sanitizePodSpec p1 h2).2 = h2) as ->.
  { rewrite sanitizePodSpec_spec. simpl.
    rewrite (strip_at_clean _ (PodSpec.Containers p1)).
    - apply strip_at_clean. unfold h2. apply clean_preserved.
      by apply clean_after_sanitize; right.
    - unfold h2. apply clean_preserved. by apply clean_after_sanitize; left. }
  rewrite sanitizePodSpec_spec. simpl.
  rewrite (strip_at_clean _ (PodSpec.Containers p2)).
  - apply strip_at_clean. unfold h2. by apply clean_after_sanitize; right.
  - unfold h2. by apply clean_after_sanitize; left.
Qed.

(** X7.  The effect of [Match] on the store happens once: a second call
    with the same arguments returns the same verdict and leaves the store as
    the first call left it. *)
Theorem Match_repeat psi pod h :
  Match psi pod (Match psi pod h).2 = Match psi pod h.
Proof.
  destruct (decide (Pod.Labels pod = labels psi)) as [Heq|Hne].
  - rewrite !Match_labels_equal by done.
    destruct (PodSpecSemanticallyEqual_post (Pod.Spec pod) (spec psi) h) as [Hv Hs].
    destruct (PodSpecSemanticallyEqual_post (Pod.Spec pod) (spec psi)
                (PodSpecSemanticallyEqual (Pod.Spec pod) (spec psi) h).2) as [Hv' Hs'].
    cbv zeta in *.
    assert ((PodSpecSemanticallyEqual (Pod.Spec pod) (spec psi)
               (PodSpecSemanticallyEqual (Pod.Spec pod) (spec psi) h).2).2
            = (PodSpecSemanticallyEqual (Pod.Spec pod) (spec psi) h).2) as Hsame.
    { rewrite Hs'. rewrite Hs. apply sanitize_twice_store. }
    rewrite Hsame in Hv'.
    rewrite (surjective_pairing (PodSpecSemanticallyEqual _ _ (PodSpecSemanticallyEqual _ _ h).2)).
    rewrite (surjective_pairing (PodSpecSemanticallyEqual (Pod.Spec pod) (spec psi) h)) at 3.
    by rewrite Hv', Hsame, Hv.
  - by rewrite !Match_labels_differ.
Qed.

Lemma equivalent_sym h a b :
  equivalent h (signature_of a) b → equivalent h (signature_of b) a.
Proof.
  intros [Hl Hs]. split; [done|]. by apply Semantic_DeepEqual_value_sym.
Qed.

Lemma equivalent_trans h a b c :
  equivalent h (signature_of a) b → equivalent h (signature_of b) c →
  equivalent h (signature_of a) c.
Proof.
  intros [Hl1 Hs1] [Hl2 Hs2]. simpl in *. split; [simpl; congruence|].
  simpl. by apply (Semantic_DeepEqual_value_trans _ (sanitized (deref h (Pod.Spec b)))).
Qed.

Lemma equivalent_after_Match psi pod h x y :
  coherent (Pod.Spec x) (Pod.Spec pod) → coherent (Pod.Spec x) (spec psi) →
  coherent (Pod.Spec y) (Pod.Spec pod) → coherent (Pod.Spec y) (spec psi) →
  equivalent (Match psi pod h).2 (signature_of x) y ↔ equivalent h (signature_of x) y.
Proof.
  intros Hx1 Hx2 Hy1 Hy2. apply equivalent_frame; simpl; by apply Match_frame.
Qed.

(** X8.  [Match] behaves as an equivalence on pods.  A pod matches its own
    signature; matching [b] against the signature of [a] is the same call as
    matching [a] against the signature of [b]; and for pairwise coherent
    pods, if [b] matches [a] and then [c] matches [b], then [c] matches [a],
    in the store as the two earlier calls leave it. *)
Theorem Match_equivalence a b c h :
  (Match (signature_of a) a h).1 = true
  ∧ Match (signature_of a) b h = Match (signature_of b) a h
  ∧ (coherent (Pod.Spec a) (Pod.Spec b) → coherent (Pod.Spec b) (Pod.Spec c) →
     coherent (Pod.Spec a) (Pod.Spec c) →
     let h1 := (Match (signature_of a) b h).2 in
     let h2 := (Match (signature_of b) c h1).2 in
     (Match (signature_of a) b h).1 = true →
     (Match (signature_of b) c h1).1 = true →
     (Match (signature_of a) c h2).1 = true).
Proof.
  split; [apply Match_self|]. split.
  - unfold Match, reflect_DeepEqual, signature_of. simpl.
    destruct (decide (Pod.Labels b = Pod.Labels a)) as [Heq|Hne].
    + rewrite !bool_decide_eq_true_2 by done.
      apply PodSpecSemanticallyEqual_symmetric.
    + rewrite !bool_decide_eq_false_2 by (try done; by intros H; apply Hne).
      done.
  - intros Hab Hbc Hac h1 h2 H1 H2.
    apply (Match_pre (signature_of a) b h) in H1; [|by apply coherent_sym].
    apply (Match_pre (signature_of b) c h1) in H2; [|by apply coherent_sym].
    apply (equivalent_after_Match (signature_of a) b h b c) in H2; simpl;
      [|apply coherent_refl|by apply coherent_sym|by apply coherent_sym
       |by apply coherent_sym].
    apply (Match_pre (signature_of a) c h2); [by apply coherent_sym|].
    apply (equivalent_after_Match (signature_of b) c h1 a c); simpl;
      [done|done|apply coherent_refl|by apply coherent_sym|].
    apply (equivalent_after_Match (signature_of a) b h a c); simpl;
      [done|apply coherent_refl|by apply coherent_sym|by apply coherent_sym|].
    by apply (equivalent_trans h a b c).
Qed.

Lemma Match_equivalence_witness :
  (Match (signature_of Samples.web1) Samples.web_ds
     (Match (signature_of Samples.web2) Samples.web_ds
        (Match (signature_of Samples.web1) Samples.web2 Samples.store).2).2).1 = true.
Proof.
  apply (proj2 (proj2 (Match_equivalence Samples.web1 Samples.web2 Samples.web_ds
                         Samples.store))).
  - by apply samples_separate.
  - by apply samples_separate.
  - by apply samples_separate.
  - by vm_compute.
  - by vm_compute.
Defined.

(** ** The cache over a run *)

Lemma match_any_app_true l k pod h :
  (match_any l pod h).1 = true → match_any (l ++ k) pod h = match_any l pod h.
Proof.
  revert h. induction l as [|info rest IH]; intros h; simpl; [done|].
  destruct (Match info pod h) as [b h1]. destruct b; [done|apply IH].
Qed.

Lemma Match_store_frame psi pod (h : heap) a :
  ¬ owns (Pod.Spec pod) a → ¬ owns (spec psi) a →
  (Match psi pod h).2 !! a = h !! a.
Proof.
  intros H1 H2. destruct (decide (Pod.Labels pod = labels psi)) as [Heq|Hne].
  - rewrite Match_labels_equal by done.
    rewrite (proj2 (PodSpecSemanticallyEqual_post _ _ h)).
    rewrite sanitize_store_lookup by done.
    by rewrite sanitize_store_lookup by done.
  - by rewrite Match_labels_differ.
Qed.

Lemma Match_store_dom psi pod (h : heap) : dom (Match psi pod h).2 = dom h.
Proof.
  destruct (decide (Pod.Labels pod = labels psi)) as [Heq|Hne].
  - rewrite Match_labels_equal by done.
    rewrite (proj2 (PodSpecSemanticallyEqual_post _ _ h)).
    by rewrite !sanitize_store_dom.
  - by rewrite Match_labels_differ.
Qed.

Lemma match_any_store_frame infos pod a : ∀ h : heap,
  ¬ owns (Pod.Spec pod) a →
  (∀ info, info ∈ infos → ¬ owns (spec info) a) →
  (match_any infos pod h).2 !! a = h !! a.
Proof.
  induction infos as [|info rest IH]; intros h Hp Hinfos; [done|]. simpl.
  pose proof (Match_store_frame info pod h a Hp) as Hm.
  destruct (Match info pod h) as [v h1]. simpl in Hm.
  assert (h1 !! a = h !! a) as Hh1 by (apply Hm, Hinfos, list_elem_of_here).
  destruct v; [done|]. rewrite IH; [done|done|].
  intros i Hi. apply Hinfos. by apply list_elem_of_further.
Qed.

Lemma match_any_store_dom infos pod : ∀ h : heap,
  dom (match_any infos pod h).2 = dom h.
Proof.
  induction infos as [|info rest IH]; intros h; [done|]. simpl.
  pose proof (Match_store_dom info pod h) as Hm.
  destruct (Match info pod h) as [v h1]. simpl in Hm.
  destruct v; [done|]. by rewrite IH.
Qed.

Section CacheFurther.

Variable ControllerRef : Pod.t → option OwnerReference.t.
Variable IsDaemonSetPod : Pod.t → bool.

Local Abbreviation SetUnschedulable := (SetUnschedulable ControllerRef IsDaemonSetPod).
Local Abbreviation IsSimilarUnschedulable := (IsSimilarUnschedulable ControllerRef).
Local Abbreviation reachable := (reachable ControllerRef IsDaemonSetPod).
Local Abbreviation run := (run ControllerRef IsDaemonSetPod).
Local Abbreviation cacheable := (cacheable ControllerRef IsDaemonSetPod).
Local Abbreviation submitted := (submitted ControllerRef IsDaemonSetPod).

(** X9.  A lookup compares specifications only against stored signatures
    that have the pod's label map.  When no signature stored for the pod's
    controller has it, the lookup returns false and the store is left as it
    was. *)
Theorem IsSimilarUnschedulable_other_labels p pod h :
  (∀ ref info, ControllerRef pod = Some ref →
     info ∈ index_items p (OwnerReference.UID ref) → labels info ≠ Pod.Labels pod) →
  IsSimilarUnschedulable p pod h = (false, h).
Proof.
  intros Hl. destruct (ControllerRef pod) as [ref|] eqn:Hr.
  - rewrite (IsSimilarUnschedulable_ref ControllerRef p pod ref h Hr).
    specialize (Hl ref).
    induction (index_items p (OwnerReference.UID ref)) as [|info rest IH]; [done|].
    simpl. rewrite Match_labels_differ.
    + apply IH. intros i Hrr Hi. apply Hl; [done|by apply list_elem_of_further].
    + intros Heq. apply (Hl info eq_refl); [apply list_elem_of_here|done].
  - by apply IsSimilarUnschedulable_no_ref.
Qed.

(** X10.  [SetUnschedulable] works on the entry of the pod's controller
    only: the signatures and the overflow mark of every other controller
    identity are as before. *)
Theorem SetUnschedulable_other_controller p pod uid :
  (∀ ref, ControllerRef pod = Some ref → OwnerReference.UID ref ≠ uid) →
  index_items (SetUnschedulable p pod) uid = index_items p uid
  ∧ overflowingControllers (SetUnschedulable p pod) !! uid
    = overflowingControllers p !! uid.
Proof.
  intros Hne.
  destruct (SetUnschedulable_cases ControllerRef IsDaemonSetPod p pod)
    as [[-> _]|[(ref & Hr & _ & _ & ->)|(ref & Hr & _ & _ & ->)]].
  - done.
  - split; [done|]. simpl. rewrite lookup_insert_ne; [done|by apply Hne].
  - split; [|done]. rewrite index_items_insert.
    rewrite decide_False; [done|by apply Hne].
Qed.

Lemma cacheable_true uid pod :
  cacheable uid pod = true
  ↔ ∃ ref, ControllerRef pod = Some ref ∧ OwnerReference.UID ref = uid
           ∧ IsDaemonSetPod pod = false.
Proof.
  unfold cacheable. destruct (ControllerRef pod) as [ref|].
  - rewrite andb_true_iff, bool_decide_eq_true, negb_true_iff. split.
    + intros [H1 H2]. by exists ref.
    + intros (r & [= <-] & H1 & H2). done.
  - split; [done|]. by intros (r & H & _).
Qed.

Lemma submitted_cons uid pod rest :
  submitted uid (pod :: rest)
  = if cacheable uid pod then signature_of pod :: submitted uid rest
    else submitted uid rest.
Proof.
  unfold submitted. destruct (cacheable uid pod) eqn:E.
  - by rewrite filter_cons_True.
  - rewrite filter_cons_False; [done|]. by rewrite E.
Qed.

Lemma index_items_marks p ov uid :
  index_items {| items := items p; overflowingControllers := ov |} uid
  = index_items p uid.
Proof. done. Qed.

(** The state after a run, entry by entry. *)
Lemma run_closed_form pods : ∀ p uid,
  (length (index_items p uid) ≤ maxPodsPerOwnerRef)%nat →
  index_items (run p pods).1 uid
    = take maxPodsPerOwnerRef (index_items p uid ++ submitted uid pods)
  ∧ overflowingControllers (run p pods).1 !! uid
    = if decide (maxPodsPerOwnerRef
                 < length (index_items p uid) + length (submitted uid pods))%nat
      then Some true else overflowingControllers p !! uid.
Proof.
  induction pods as [|pod rest IH]; intros p uid Hlen.
  - simpl. rewrite app_nil_r, take_ge by done.
    split; [done|]. rewrite decide_False; [done|]. unfold submitted. simpl. lia.
  - simpl. specialize (IH (SetUnschedulable p pod) uid).
    destruct (run (SetUnschedulable p pod) rest) as [p' marks]. simpl in *.
    rewrite submitted_cons.
    destruct (SetUnschedulable_cases ControllerRef IsDaemonSetPod p pod)
      as [[Hs Hskip]|[(ref & Hr & Hd & Hl & Hs)|(ref & Hr & Hd & Hl & Hs)]].
    + assert (cacheable uid pod = false) as ->.
      { apply not_true_is_false. intros (r & Hr & _ & Hd)%cacheable_true.
        destruct Hskip; congruence. }
      rewrite Hs in IH. by apply IH.
    + destruct (decide (OwnerReference.UID ref = uid)) as [Hu|Hu].
      * assert (cacheable uid pod = true) as ->
          by (apply cacheable_true; by exists ref).
        subst uid. rewrite Hs in IH.
        rewrite !index_items_marks in IH.
        destruct (IH Hlen) as [IH1 IH2]. clear IH.
        simpl in IH2. rewrite lookup_insert_eq in IH2.
        split.
        -- rewrite IH1. rewrite !take_app_le by lia. done.
        -- rewrite IH2.
           rewrite (decide_True (P := (maxPodsPerOwnerRef
                      < length (index_items p (OwnerReference.UID ref))
                        + length (signature_of pod
                                  :: submitted (OwnerReference.UID ref) rest))%nat))
             by (simpl; lia).
           by case_decide.
      * assert (cacheable uid pod = false) as ->.
        { apply not_true_is_false. intros (r & Hr' & Hu' & _)%cacheable_true.
          congruence. }
        rewrite Hs in IH. rewrite !index_items_marks in IH.
        destruct (IH Hlen) as [IH1 IH2]. clear IH.
        simpl in IH2. rewrite lookup_insert_ne in IH2 by done.
        split; [exact IH1|exact IH2].
    + destruct (decide (OwnerReference.UID ref = uid)) as [Hu|Hu].
      * assert (cacheable uid pod = true) as ->
          by (apply cacheable_true; by exists ref).
        subst uid. rewrite Hs in IH.
        rewrite index_items_insert, decide_True in IH by done.
        destruct IH as [IH1 IH2].
        { rewrite length_app. simpl. lia. }
        simpl in IH2. rewrite length_app in IH2. simpl in IH2.
        split.
        -- rewrite IH1. by rewrite <- app_assoc.
        -- rewrite IH2. simpl.
           repeat case_decide; try done; lia.
      * assert (cacheable uid pod = false) as ->.
        { apply not_true_is_false. intros (r & Hr' & Hu' & _)%cacheable_true.
          congruence. }
        rewrite Hs in IH.
        rewrite index_items_insert, decide_False in IH by done.
        destruct (IH Hlen) as [IH1 IH2]. split; [exact IH1|exact IH2].
Qed.

(** X11.  After any run from a fresh cache, the list stored for a
    controller holds the signatures of the first [maxPodsPerOwnerRef] pods of
    the run that have this controller and are not daemon-set pods, in the
    order of the run, equal ones included. *)
Theorem run_stores_first_ten pods uid :
  index_items (run NewSimilarPodsScheduling pods).1 uid
  = take 10 (submitted uid pods).
Proof.
  destruct (run_closed_form pods NewSimilarPodsScheduling uid) as [H _].
  - unfold index_items. simpl. rewrite lookup_empty. simpl. lia.
  - rewrite H. unfold index_items at 1. simpl. by rewrite lookup_empty.
Qed.

(** X12.  After any run from a fresh cache, a controller is marked as
    overflowing exactly when more than [maxPodsPerOwnerRef] pods of the run
    had this controller and were not daemon-set pods; the mark is [true]. *)
Theorem run_marks_overflow pods uid :
  overflowingControllers (run NewSimilarPodsScheduling pods).1 !! uid
  = if decide (10 < length (submitted uid pods))%nat then Some true else None.
Proof.
  destruct (run_closed_form pods NewSimilarPodsScheduling uid) as [_ H].
  - unfold index_items. simpl. rewrite lookup_empty. simpl. lia.
  - rewrite H. unfold index_items. simpl. rewrite !lookup_empty. simpl.
    unfold maxPodsPerOwnerRef. by repeat case_decide.
Qed.

(** X13.  In every reachable state, a controller that is marked as
    overflowing is marked [true] and has exactly [maxPodsPerOwnerRef] stored
    signatures. *)
Theorem overflowing_means_full p uid b :
  reachable p → overflowingControllers p !! uid = Some b →
  b = true ∧ length (index_items p uid) = 10%nat.
Proof.
  intros [pods ->]%reachable_run.
  destruct (run_closed_form pods NewSimilarPodsScheduling uid) as [Hi Hm].
  { unfold index_items. simpl. rewrite lookup_empty. simpl. lia. }
  rewrite Hi, Hm. unfold index_items. simpl. rewrite !lookup_empty. simpl.
  unfold maxPodsPerOwnerRef.
  destruct (decide (10 < length (submitted uid pods))%nat) as [Hn|Hn].
  - intros [= <-]. split; [done|]. rewrite length_take. lia.
  - intros [=].
Qed.

Lemma run_prefix pods : ∀ p uid,
  index_items p uid `prefix_of` index_items (run p pods).1 uid.
Proof.
  induction pods as [|pod rest IH]; intros p uid; simpl; [done|].
  specialize (IH (SetUnschedulable p pod) uid).
  destruct (run (SetUnschedulable p pod) rest) as [p' marks]. simpl in *.
  etrans; [|exact IH].
  destruct (SetUnschedulable_cases ControllerRef IsDaemonSetPod p pod)
    as [[-> _]|[(ref & _ & _ & _ & ->)|(ref & _ & _ & _ & ->)]]; try done.
  rewrite index_items_insert. case_decide as Hu; [|done].
  subst uid. by apply prefix_app_r.
Qed.

(** X14.  Calls of [SetUnschedulable] only ever append: the list stored for
    a controller before a run is a prefix of the list after it, so its
    length does not decrease, and a controller marked before is still marked
    after. *)
Theorem run_only_appends p pods uid :
  index_items p uid `prefix_of` index_items (run p pods).1 uid
  ∧ (length (index_items p uid) ≤ length (index_items (run p pods).1 uid))%nat
  ∧ dom (overflowingControllers p) ⊆ dom (overflowingControllers (run p pods).1).
Proof.
  split; [apply run_prefix|]. split.
  - destruct (run_prefix pods p uid) as [k ->]. rewrite length_app. lia.
  - rewrite run_marks. set_solver.
Qed.

(** X15.  A positive lookup stays positive: when a pod is found in the
    cache, it is found, with the same effect on the store, after any further
    calls of [SetUnschedulable]. *)
Theorem lookup_stays_positive p pods pod h :
  (IsSimilarUnschedulable p pod h).1 = true →
  IsSimilarUnschedulable (run p pods).1 pod h = IsSimilarUnschedulable p pod h.
Proof.
  destruct (ControllerRef pod) as [ref|] eqn:Hr.
  - rewrite !(IsSimilarUnschedulable_ref ControllerRef _ pod ref h Hr).
    destruct (run_prefix pods p (OwnerReference.UID ref)) as [k ->].
    apply match_any_app_true.
  - by rewrite IsSimilarUnschedulable_no_ref.
Qed.

(** X16.  Store one replica, look up another: after [SetUnschedulable]
    stores the signature of [a], a pod [b] of the same controller that is
    equivalent to [a] is found, provided the stored signatures and [b] are
    coherent. *)
Theorem store_then_lookup_replica p a b ra rb h :
  ControllerRef a = Some ra → IsDaemonSetPod a = false →
  (length (index_items p (OwnerReference.UID ra)) < 10)%nat →
  ControllerRef b = Some rb → OwnerReference.UID rb = OwnerReference.UID ra →
  coherent_family (Pod.Spec b)
    (index_items (SetUnschedulable p a) (OwnerReference.UID ra)) →
  equivalent h (signature_of a) b →
  (IsSimilarUnschedulable (SetUnschedulable p a) b h).1 = true.
Proof.
  intros Ha Hd Hl Hb Hu Hco He.
  rewrite (IsSimilarUnschedulable_ref ControllerRef _ b rb h Hb), Hu.
  apply match_any_pre; [done|]. exists (signature_of a). split; [|done].
  rewrite (SetUnschedulable_room ControllerRef IsDaemonSetPod p a ra Ha Hd Hl).
  rewrite index_items_insert, decide_True by done.
  apply elem_of_app. right. apply list_elem_of_here.
Qed.

(** X17.  A lookup writes only to arrays of the pod and of the signatures
    stored for the pod's controller: every other array of the store is as
    before, and no array is allocated or freed. *)
Theorem IsSimilarUnschedulable_frame p pod (h : heap) :
  (∀ a, ¬ owns (Pod.Spec pod) a →
        (∀ ref info, ControllerRef pod = Some ref →
           info ∈ index_items p (OwnerReference.UID ref) → ¬ owns (spec info) a) →
        (IsSimilarUnschedulable p pod h).2 !! a = h !! a)
  ∧ dom (IsSimilarUnschedulable p pod h).2 = dom h.
Proof.
  destruct (ControllerRef pod) as [ref|] eqn:Hr.
  - rewrite (IsSimilarUnschedulable_ref ControllerRef p pod ref h Hr).
    split; [|apply match_any_store_dom].
    intros a Hp Hinfos. apply match_any_store_frame; [done|].
    intros info Hi. by apply (Hinfos ref).
  - by rewrite IsSimilarUnschedulable_no_ref.
Qed.

End CacheFurther.

(** ** Initialisation: when it panics, where it stops, what it reports *)

Section InitializeFurther.
Import clustersnapshot.
Context {S : Type} {snap : ClusterSnapshot S}.

Lemma add_pods_app pre : ∀ (s : S) err,
  Forall (λ q, binding_target q ≠ None) pre →
  ∃ s' err', add_pods pre s err = Returned s'
             ∧ ∀ rest, add_pods (pre ++ rest) s err = add_pods rest s' err'.
Proof.
  induction pre as [|q pre IH]; intros s err Hall.
  - by exists s, err.
  - apply Forall_cons in Hall as [Hq Hpre].
    destruct (binding_target q) as [n|] eqn:E; [|done].
    destruct (IH (AddPod q n s).1 (AddPod q n s).2 Hpre) as (s' & err' & H1 & H2).
    exists s', err'. split.
    + by rewrite (add_pods_bound q pre s err n E).
    + intros rest. rewrite <- app_comm_cons.
      by rewrite (add_pods_bound q (pre ++ rest) s err n E).
Qed.

Lemma bound_or_not (pod : Pod.t) :
  binding_target pod ≠ None
  ↔ PodSpec.NodeName (Pod.Spec pod) ≠ "" ∨ Pod.NominatedNodeName pod ≠ "".
Proof.
  rewrite binding_target_none.
  destruct (decide (PodSpec.NodeName (Pod.Spec pod) = "")) as [H1|H1];
    destruct (decide (Pod.NominatedNodeName pod = "")) as [H2|H2]; tauto.
Qed.

(** X18.  [InitializeClusterSnapshotOrDie] panics exactly when some pod has
    neither a node name nor a nominated node: for every snapshot
    implementation, nothing else makes it panic and nothing prevents it. *)
Theorem Initialize_panics_iff (snapshot : S) nodes pods :
  panicked (InitializeClusterSnapshotOrDie snapshot nodes pods) = true
  ↔ ∃ pod, pod ∈ pods ∧ PodSpec.NodeName (Pod.Spec pod) = ""
           ∧ Pod.NominatedNodeName pod = "".
Proof.
  unfold InitializeClusterSnapshotOrDie.
  destruct (add_nodes nodes (Clear snapshot, None)) as [s1 err1].
  split.
  - intros Hp.
    destruct (decide (Forall (λ q, binding_target q ≠ None) pods)) as [Hall|Hnot].
    + rewrite (add_pods_returns pods s1 err1 Hall) in Hp. discriminate.
    + apply not_Forall_Exists in Hnot; [|apply _].
      apply Exists_exists in Hnot as (pod & Hin & Hnone).
      exists pod. split; [done|]. apply binding_target_none.
      by apply dec_stable.
  - intros (pod & Hin & H1 & H2).
    apply (add_pods_panics pods s1 err1 pod Hin). by apply binding_target_none.
Qed.

(** X19.  The loop stops at the first pod with no target.  The pods after it
    are never looked at, and the snapshot is left as initialising with the
    pods before it leaves it: cleared, with all the nodes and those pods
    added. *)
Theorem Initialize_stops_at_first_unbound (snapshot : S) nodes pre bad post :
  Forall (λ q, PodSpec.NodeName (Pod.Spec q) ≠ "" ∨ Pod.NominatedNodeName q ≠ "") pre →
  PodSpec.NodeName (Pod.Spec bad) = "" → Pod.NominatedNodeName bad = "" →
  ∃ v s, InitializeClusterSnapshotOrDie snapshot nodes pre = Returned s
         ∧ InitializeClusterSnapshotOrDie snapshot nodes (pre ++ bad :: post)
           = Panicked v s.
Proof.
  intros Hpre H1 H2. unfold InitializeClusterSnapshotOrDie.
  destruct (add_nodes nodes (Clear snapshot, None)) as [s1 err1].
  assert (Forall (λ q, binding_target q ≠ None) pre) as Hpre'.
  { eapply Forall_impl; [exact Hpre|]. intros q Hq. by apply bound_or_not. }
  destruct (add_pods_app pre s1 err1 Hpre') as (s' & err' & Hret & Happ).
  exists err', s'. split; [done|].
  rewrite Happ. apply add_pods_unbound. by apply binding_target_none.
Qed.

End InitializeFurther.

Section RecorderFurther.
Import clustersnapshot.
Variable verdict : list call → call → option error.

Local Abbreviation pending := (pending verdict).

Lemma pending_add_nodes nodes : ∀ s err,
  pending s err →
  pending (add_nodes (snap := Recorder verdict) nodes (s, err)).1
          (add_nodes (snap := Recorder verdict) nodes (s, err)).2.
Proof.
  unfold add_nodes.
  induction nodes as [|node rest IH]; intros s err Hp; [done|]. simpl.
  apply IH. by exists s, (CallAddNode node).
Qed.

Lemma pending_add_pods pods : ∀ s err v s',
  pending s err →
  add_pods (snap := Recorder verdict) pods s err = Panicked v s' →
  pending s' v.
Proof.
  induction pods as [|pod rest IH]; intros s err v s' Hp; [done|].
  destruct (binding_target pod) as [n|] eqn:E.
  - rewrite (add_pods_bound pod rest s err n E). simpl.
    apply IH. by exists s, (CallAddPod pod n).
  - rewrite (add_pods_unbound pod rest s err E). by intros [= <- <-].
Qed.

(** X20.  The value of the panic is not about the pod that caused it: it is
    the error reported by the latest call of [AddNode] or [AddPod], whether
    nil or not, and nil when no such call was made. *)
Theorem Initialize_panic_value log nodes pods v s :
  InitializeClusterSnapshotOrDie (snap := Recorder verdict) log nodes pods
    = Panicked v s →
  ∃ l c, s = l ++ [c]
         ∧ v = match c with CallClear => None | _ => verdict l c end.
Proof.
  unfold InitializeClusterSnapshotOrDie.
  pose proof (pending_add_nodes nodes (Clear (ClusterSnapshot := Recorder verdict) log) None)
    as Hn.
  destruct (add_nodes nodes _) as [s1 err1]. simpl in Hn.
  intros Hp. apply (pending_add_pods pods s1 err1 v s); [|done].
  apply Hn. by exists log, CallClear.
Qed.

End RecorderFurther.

(** ** Package main: node conditions, readiness, capacity *)

Section NodeBuilders.
Import main.

Lemma update_condition_none cs ty st t :
  update_condition cs ty st t = None ↔ ty ∉ NodeCondition.CondType <$> cs.
Proof.
  induction cs as [|c cs IH]; simpl.
  - split; [intros _; apply not_elem_of_nil|done].
  - rewrite not_elem_of_cons.
    destruct (String.eqb_spec (NodeCondition.CondType c) ty) as [Heq|Hne].
    + split; [done|]. intros [H _]. by destruct H.
    + rewrite fmap_None, IH. split; [intros H; split; [congruence|done]|tauto].
Qed.

Lemma update_condition_some cs ty st t cs' :
  update_condition cs ty st t = Some cs' →
  NodeCondition.CondType <$> cs' = NodeCondition.CondType <$> cs
  ∧ (∃ c, find_condition cs' ty = Some c ∧ NodeCondition.CondType c = ty
          ∧ NodeCondition.Status c = st ∧ NodeCondition.LastTransitionTime c = t)
  ∧ (∀ ty', ty' ≠ ty → find_condition cs' ty' = find_condition cs ty')
  ∧ (∀ st' t', update_condition cs' ty st' t' = update_condition cs ty st' t').
Proof.
  revert cs'. induction cs as [|c cs IH]; intros cs'; simpl; [done|].
  destruct (String.eqb_spec (NodeCondition.CondType c) ty) as [Heq|Hne].
  - intros [= <-]. simpl. split; [done|]. split; [|split].
    + eexists. unfold find_condition. simpl.
      rewrite (proj2 (String.eqb_eq _ _) Heq). done.
    + intros ty' Hty'. unfold find_condition. simpl.
      by rewrite (proj2 (String.eqb_neq _ _)) by congruence.
    + intros st' t'. by rewrite (proj2 (String.eqb_eq _ _) Heq).
  - destruct (update_condition cs ty st t) as [cs1|] eqn:E; [|done].
    intros [= <-]. destruct (IH cs1 eq_refl) as (H1 & (c1 & H2 & H2') & H3 & H4).
    split; [by rewrite !fmap_cons, H1|]. split; [|split].
    + exists c1. unfold find_condition in *. simpl.
      by rewrite (proj2 (String.eqb_neq _ _) Hne).
    + intros ty' Hty'. unfold find_condition in *. simpl.
      destruct (String.eqb (NodeCondition.CondType c) ty'); [done|by apply H3].
    + intros st' t'. simpl. rewrite (proj2 (String.eqb_neq _ _) Hne). by rewrite H4.
Qed.

Lemma update_condition_snoc cs c ty st t :
  update_condition cs ty st t = None → NodeCondition.CondType c = ty →
  update_condition (cs ++ [c]) ty st t
  = Some (cs ++ [ {| NodeCondition.CondType := NodeCondition.CondType c;
                     NodeCondition.Status := st;
                     NodeCondition.LastHeartbeatTime := NodeCondition.LastHeartbeatTime c;
                     NodeCondition.LastTransitionTime := t;
                     NodeCondition.Reason := NodeCondition.Reason c;
                     NodeCondition.Message := NodeCondition.Message c |} ]).
Proof.
  intros Hnone Hc. induction cs as [|d cs IH]; simpl in *.
  - by rewrite (proj2 (String.eqb_eq _ _) Hc).
  - destruct (String.eqb (NodeCondition.CondType d) ty); [done|].
    apply fmap_None in Hnone. by rewrite IH.
Qed.

Lemma find_condition_snoc cs c ty :
  find_condition (cs ++ [c]) ty
  = match find_condition cs ty with
    | Some d => Some d
    | None => if String.eqb (NodeCondition.CondType c) ty then Some c else None
    end.
Proof.
  unfold find_condition. induction cs as [|d cs IH]; simpl; [done|].
  by destruct (String.eqb (NodeCondition.CondType d) ty).
Qed.

Lemma find_condition_none cs ty :
  ty ∉ NodeCondition.CondType <$> cs → find_condition cs ty = None.
Proof.
  unfold find_condition. induction cs as [|d cs IH]; simpl; [done|].
  rewrite not_elem_of_cons. intros [H1 H2].
  rewrite (proj2 (String.eqb_neq _ _)) by congruence. by apply IH.
Qed.

Lemma SetNodeCondition_find node ty st t :
  ∃ c, find_condition (NodeObject.Conditions (SetNodeCondition node ty st t)) ty = Some c
       ∧ NodeCondition.Status c = st ∧ NodeCondition.LastTransitionTime c = t.
Proof.
  unfold SetNodeCondition.
  destruct (update_condition (NodeObject.Conditions node) ty st t) as [cs|] eqn:E.
  - destruct (update_condition_some _ _ _ _ _ E) as (_ & (c & H2 & _ & H3 & H4) & _).
    by exists c.
  - apply update_condition_none in E. simpl. rewrite find_condition_snoc. simpl.
    rewrite (find_condition_none _ _ E), String.eqb_refl. by eexists.
Qed.

Lemma SetNodeCondition_Taints node ty st t :
  NodeObject.Taints (SetNodeCondition node ty st t) = NodeObject.Taints node.
Proof.
  unfold SetNodeCondition. by destruct (update_condition _ _ _ _).
Qed.

(** X21.  After [SetNodeCondition] the first condition of the given type has
    the given status and transition time; the first condition of every other
    type is as before; and the list grows, by one, exactly when the node had
    no condition of the type. *)
Theorem SetNodeCondition_sets node ty st t :
  (∃ c, find_condition (NodeObject.Conditions (SetNodeCondition node ty st t)) ty = Some c
        ∧ NodeCondition.Status c = st ∧ NodeCondition.LastTransitionTime c = t)
  ∧ (∀ ty', ty' ≠ ty →
       find_condition (NodeObject.Conditions (SetNodeCondition node ty st t)) ty'
       = find_condition (NodeObject.Conditions node) ty')
  ∧ length (NodeObject.Conditions (SetNodeCondition node ty st t))
    = (length (NodeObject.Conditions node)
       + if decide (ty ∈ NodeCondition.CondType <$> NodeObject.Conditions node)
         then 0 else 1)%nat.
Proof.
  split; [apply SetNodeCondition_find|].
  unfold SetNodeCondition.
  destruct (update_condition (NodeObject.Conditions node) ty st t) as [cs|] eqn:E.
  - destruct (update_condition_some _ _ _ _ _ E) as (H1 & _ & H5 & _).
    simpl. split; [done|].
    rewrite decide_True.
    + rewrite <- (length_fmap NodeCondition.CondType cs), H1, length_fmap. lia.
    + destruct (decide (ty ∈ NodeCondition.CondType <$> NodeObject.Conditions node))
        as [Hin|Hnin]; [done|].
      apply update_condition_none with (st := st) (t := t) in Hnin. congruence.
  - pose proof (proj1 (update_condition_none _ _ _ _) E) as Hnin.
    simpl. split.
    + intros ty' Hty'. rewrite find_condition_snoc. simpl.
      rewrite (proj2 (String.eqb_neq _ _)) by done.
      by destruct (find_condition _ _).
    + rewrite decide_False by done. rewrite length_app. simpl. lia.
Qed.

(** X22.  The last write wins: setting a condition of a type twice is the
    same as setting it once with the second status and time.  In particular
    the call is idempotent. *)
Theorem SetNodeCondition_last_write_wins node ty st1 t1 st2 t2 :
  SetNodeCondition (SetNodeCondition node ty st1 t1) ty st2 t2
  = SetNodeCondition node ty st2 t2.
Proof.
  unfold SetNodeCondition at 2.
  destruct (update_condition (NodeObject.Conditions node) ty st1 t1) as [cs|] eqn:E.
  - destruct (update_condition_some _ _ _ _ _ E) as (_ & _ & _ & H4).
    unfold SetNodeCondition. simpl. rewrite H4.
    destruct (update_condition_some _ _ _ _ _ E) as (H1 & _).
    destruct (update_condition (NodeObject.Conditions node) ty st2 t2) as [cs2|] eqn:E2.
    + done.
    + apply update_condition_none in E2. apply update_condition_none with (st := st1) (t := t1) in E2.
      congruence.
  - unfold SetNodeCondition. simpl.
    assert (update_condition (NodeObject.Conditions node) ty st2 t2 = None) as E2.
    { apply update_condition_none. by apply update_condition_none in E. }
    rewrite E2. erewrite update_condition_snoc; [done| |done].
    apply update_condition_none. by apply update_condition_none in E.
Qed.

(** X23.  [SetNodeCondition] never introduces a second condition of a type:
    if the types of the node's conditions are distinct, they still are. *)
Theorem SetNodeCondition_distinct_types node ty st t :
  NoDup (NodeCondition.CondType <$> NodeObject.Conditions node) →
  NoDup (NodeCondition.CondType <$> NodeObject.Conditions (SetNodeCondition node ty st t)).
Proof.
  intros Hnd. unfold SetNodeCondition.
  destruct (update_condition (NodeObject.Conditions node) ty st t) as [cs|] eqn:E.
  - destruct (update_condition_some _ _ _ _ _ E) as (H1 & _). simpl. by rewrite H1.
  - apply update_condition_none in E. simpl. rewrite fmap_app. simpl.
    apply NoDup_app. split; [done|]. split; [|apply NoDup_singleton].
    intros x Hx Hx'. apply list_elem_of_singleton in Hx'. by subst.
Qed.

(** X24.  Readiness and the not-ready taint.  After [SetNodeReadyState] the
    Ready condition reports the state that was set.  Setting a node ready
    leaves its taints alone, so it does not remove a not-ready taint set
    before; setting it not ready adds one not-ready taint at each call, so
    [k] such calls leave [k] copies. *)
Theorem SetNodeReadyState_taints node ready t t' k :
  (∃ c, find_condition (NodeObject.Conditions (SetNodeReadyState node ready t)) NodeReady
          = Some c
        ∧ NodeCondition.Status c = (if ready then ConditionTrue else ConditionFalse)
        ∧ NodeCondition.LastTransitionTime c = t)
  ∧ NodeObject.Taints (SetNodeReadyState node true t) = NodeObject.Taints node
  ∧ NodeObject.Taints (SetNodeReadyState (SetNodeReadyState node false t) true t')
    = NodeObject.Taints node ++ [not_ready_taint]
  ∧ NodeObject.Taints (Nat.iter k (λ n, SetNodeReadyState n false t) node)
    = NodeObject.Taints node ++ replicate k not_ready_taint.
Proof.
  assert (∀ n, NodeObject.Taints (SetNodeReadyState n false t)
               = NodeObject.Taints n ++ [not_ready_taint]) as Hfalse.
  { intros n. unfold SetNodeReadyState. simpl. by rewrite SetNodeCondition_Taints. }
  split; [|split; [|split]].
  - unfold SetNodeReadyState. destruct ready.
    + apply SetNodeCondition_find.
    + simpl. apply SetNodeCondition_find.
  - unfold SetNodeReadyState. apply SetNodeCondition_Taints.
  - unfold SetNodeReadyState at 1. by rewrite SetNodeCondition_Taints, Hfalse.
  - induction k as [|k IH].
    + simpl. by rewrite app_nil_r.
    + rewrite Nat.iter_succ. cbv beta.
      rewrite Hfalse, IH, <- app_assoc. by rewrite <- replicate_S_end.
Qed.

Lemma copy_resources_empty capacity : copy_resources capacity ∅ = capacity.
Proof.
  unfold copy_resources.
  apply (map_fold_weak_ind (λ r m, r = m)); [done|].
  intros k v m r _ ->. done.
Qed.

(** X25.  [BuildTestNode] gives a node whose allocatable resources are its
    capacity: 100 pods, the CPU in milli-units when [millicpu] is not
    negative and none otherwise, the memory when [mem] is not negative and
    none otherwise; it has no condition and no taint.  [buildReadyNode] adds
    the one condition Ready, with status True, and nothing else. *)
Theorem BuildTestNode_resources name millicpu mem :
  NodeObject.Allocatable (BuildTestNode name millicpu mem)
    = NodeObject.Capacity (BuildTestNode name millicpu mem)
  ∧ NodeObject.Capacity (BuildTestNode name millicpu mem) !! ResourcePods
    = Some (resource.NewQuantity 100 resource.DecimalSI)
  ∧ NodeObject.Capacity (BuildTestNode name millicpu mem) !! ResourceCPU
    = (if decide (0 ≤ millicpu)%Z
       then Some (resource.NewMilliQuantity millicpu resource.DecimalSI) else None)
  ∧ NodeObject.Capacity (BuildTestNode name millicpu mem) !! ResourceMemory
    = (if decide (0 ≤ mem)%Z
       then Some (resource.NewQuantity mem resource.DecimalSI) else None)
  ∧ NodeObject.Conditions (BuildTestNode name millicpu mem) = []
  ∧ NodeObject.Taints (BuildTestNode name millicpu mem) = []
  ∧ buildReadyNode name millicpu mem
    = set_Conditions (BuildTestNode name millicpu mem)
        [ {| NodeCondition.CondType := NodeReady;
             NodeCondition.Status := ConditionTrue;
             NodeCondition.LastHeartbeatTime := 0;
             NodeCondition.LastTransitionTime := 0;
             NodeCondition.Reason := "";
             NodeCondition.Message := "" |} ].
Proof.
  split; [apply copy_resources_empty|].
  unfold BuildTestNode. simpl.
  assert (ResourceCPU ≠ ResourcePods) as H1 by done.
  assert (ResourceMemory ≠ ResourcePods) as H2 by done.
  assert (ResourceMemory ≠ ResourceCPU) as H3 by done.
  repeat split.
  - destruct (bool_decide (0 ≤ millicpu)%Z), (bool_decide (0 ≤ mem)%Z);
      rewrite ?lookup_insert_ne by done; by rewrite lookup_singleton_eq.
  - destruct (decide (0 ≤ millicpu)%Z) as [Hc|Hc];
      [rewrite (bool_decide_eq_true_2 _ Hc)|rewrite (bool_decide_eq_false_2 _ Hc)];
      destruct (bool_decide (0 ≤ mem)%Z);
      rewrite ?(lookup_insert_ne _ ResourceMemory ResourceCPU) by done;
      rewrite ?lookup_insert_eq, ?lookup_singleton_ne by done; done.
  - destruct (decide (0 ≤ mem)%Z) as [Hm|Hm];
      [rewrite (bool_decide_eq_true_2 _ Hm)|rewrite (bool_decide_eq_false_2 _ Hm)].
    + by rewrite lookup_insert_eq.
    + destruct (bool_decide (0 ≤ millicpu)%Z);
        rewrite ?lookup_insert_ne by done; by rewrite lookup_singleton_ne.
Qed.

End NodeBuilders.

(** ** The further properties on the sample data *)

Lemma sanitizePodSpec_result_witness :
  VolumeMount.Name (Samples.mount "data" "/data") ≠ Volume.Name (Samples.token "aaaaa").
Proof.
  destruct (sanitizePodSpec_result (Pod.Spec Samples.web1) Samples.store) as (_ & _ & H).
  apply (H (Some 2%positive)
           {| Container.Name := "app"; Container.Image := "web:1.0";
              Container.VolumeMounts := [Samples.mount "data" "/data"] |}).
  - left. by vm_compute.
  - vm_compute. apply list_elem_of_here.
  - apply list_elem_of_here.
  - apply list_elem_of_here.
  - done.
Defined.

Lemma IsSimilarUnschedulable_other_labels_witness :
  IsSimilarUnschedulable drain.ControllerRef
    (Samples.cache_of [Samples.web1]) MoreSamples.unlabelled Samples.store
  = (false, Samples.store).
Proof.
  apply IsSimilarUnschedulable_other_labels.
  intros ref info [= <-] Hi.
  assert (index_items (Samples.cache_of [Samples.web1]) (OwnerReference.UID Samples.web_rs)
          = [signature_of Samples.web1]) as E by (by vm_compute).
  rewrite E in Hi. apply list_elem_of_singleton in Hi. subst info. done.
Defined.

Lemma SetUnschedulable_other_controller_witness :
  index_items (SetUnschedulable drain.ControllerRef pod_utils.IsDaemonSetPod
                 Samples.full_cache MoreSamples.api1) "uid-web"
  = index_items Samples.full_cache "uid-web"
  ∧ overflowingControllers
      (SetUnschedulable drain.ControllerRef pod_utils.IsDaemonSetPod
         Samples.full_cache MoreSamples.api1) !! "uid-web"
    = overflowingControllers Samples.full_cache !! "uid-web".
Proof.
  apply SetUnschedulable_other_controller.
  intros ref [= <-]. done.
Defined.

Lemma overflowing_means_full_witness :
  true = true ∧ length (index_items Samples.overflowing_cache "uid-web") = 10%nat.
Proof.
  apply (overflowing_means_full drain.ControllerRef pod_utils.IsDaemonSetPod).
  - apply cache_of_reachable.
  - by vm_compute.
Defined.

Lemma lookup_stays_positive_witness :
  IsSimilarUnschedulable drain.ControllerRef
    (run drain.ControllerRef pod_utils.IsDaemonSetPod
       (Samples.cache_of [Samples.web1]) [Samples.canary; MoreSamples.api1]).1
    Samples.web2 Samples.store
  = IsSimilarUnschedulable drain.ControllerRef
      (Samples.cache_of [Samples.web1]) Samples.web2 Samples.store.
Proof.
  apply lookup_stays_positive. by vm_compute.
Defined.

Lemma store_then_lookup_replica_witness :
  (IsSimilarUnschedulable drain.ControllerRef
     (SetUnschedulable drain.ControllerRef pod_utils.IsDaemonSetPod
        (Samples.cache_of [Samples.canary]) Samples.web1)
     Samples.web2 Samples.store).1 = true.
Proof.
  apply (store_then_lookup_replica drain.ControllerRef pod_utils.IsDaemonSetPod
           (Samples.cache_of [Samples.canary]) Samples.web1 Samples.web2
           Samples.web_rs Samples.web_rs).
  - reflexivity.
  - reflexivity.
  - vm_compute. lia.
  - reflexivity.
  - reflexivity.
  - assert (index_items
              (SetUnschedulable drain.ControllerRef pod_utils.IsDaemonSetPod
                 (Samples.cache_of [Samples.canary]) Samples.web1)
              (OwnerReference.UID Samples.web_rs)
            = [signature_of Samples.canary; signature_of Samples.web1]) as E
      by (by vm_compute).
    rewrite E. split.
    + intros i Hi. apply elem_of_cons in Hi as [->|Hi];
        [|apply list_elem_of_singleton in Hi; subst i]; by apply samples_separate.
    + intros i j Hi Hj.
      apply elem_of_cons in Hi as [->|Hi];
        [|apply list_elem_of_singleton in Hi; subst i];
        (apply elem_of_cons in Hj as [->|Hj];
           [|apply list_elem_of_singleton in Hj; subst j]);
        try apply coherent_refl; by apply samples_separate.
  - split; by vm_compute.
Defined.

Lemma Initialize_stops_at_first_unbound_witness :
  ∃ v s,
    clustersnapshot.InitializeClusterSnapshotOrDie
      (snap := clustersnapshot.BasicClusterSnapshot) ∅
      [Samples.node "n1"; Samples.node "n2"] [Samples.assigned]
    = clustersnapshot.Returned s
    ∧ clustersnapshot.InitializeClusterSnapshotOrDie
        (snap := clustersnapshot.BasicClusterSnapshot) ∅
        [Samples.node "n1"; Samples.node "n2"]
        ([Samples.assigned] ++ Samples.unbound :: [Samples.nominated])
      = clustersnapshot.Panicked v s.
Proof.
  apply (Initialize_stops_at_first_unbound
           (snap := clustersnapshot.BasicClusterSnapshot)).
  - apply Forall_cons_2; [left; by vm_compute|apply Forall_nil_2].
  - reflexivity.
  - reflexivity.
Defined.

Lemma Initialize_panic_value_witness :
  ∃ l c,
    [ clustersnapshot.CallClear; clustersnapshot.CallAddNode (Samples.node "n1") ]
    = l ++ [c]
    ∧ Some (clustersnapshot.DuplicateNode "n1")
      = match c with
        | clustersnapshot.CallClear => None
        | _ => clustersnapshot.always_fails l c
        end.
Proof.
  apply (Initialize_panic_value clustersnapshot.always_fails []
           [Samples.node "n1"] [Samples.unbound]).
  by vm_compute.
Defined.

Lemma SetNodeCondition_distinct_types_witness :
  NoDup (NodeCondition.CondType <$>
           NodeObject.Conditions
             (main.SetNodeCondition MoreSamples.worn_node "DiskPressure" "False" 50)).
Proof.
  apply SetNodeCondition_distinct_types.
  simpl. apply NoDup_cons. split.
  - intros H. apply list_elem_of_singleton in H. discriminate.
  - apply NoDup_singleton.
Defined.
